(** * Spline: a shallow embedding of [spline.h] (1-d splines)

    The class template [Spline<T>] borrows three arrays ([_x], [_y], [_m]),
    holds a sample count, an interpolation degree and a search cursor
    ([_prev_point]), and evaluates the interpolant with [value].

    Modelling choices.
    - The scalar parameter [T] of the template is a type class [Scalar]: the
      comparisons [<] and [==] and the arithmetic the code uses.  Nothing is
      assumed of it in the definitions; the order laws the proofs need are a
      second class, [ScalarOrder], written so that an IEEE type with an
      unordered value satisfies them as well as an exact field.
    - A borrowed array is the list of the cells behind the pointer.  Reading
      outside of it is the fault [OutOfBounds]; [_length] is the separate
      [int] the caller passed, as in the source.
    - [int] values are in [Z] and [%] is [Z.rem] (truncated).  The index
      expressions of the code stay within [-1 .. 2 * _length - 1], which the
      [int] of a target holds for every array of scalars that fits its
      address space (16-bit [int] with 16-bit pointers, 32-bit with 32-bit);
      overflow of [int] is not modelled.
    - Reads inside one expression are taken in source order, [&&] reads its
      right operand only when the left one holds.  Every faulty read is the
      same fault, so another order of evaluation gives the same result.
    - The only mutation is that of [_prev_point]: [value] returns the object
      after the call next to the scalar.
    - Every division performed is logged (its divisor), so that "no division"
      and "no division by zero" are statements about a run.
    - Leaving a non-void function without [return] is a fault of its own
      ([NoReturnValue] for the loop of [value], [NoReturnCalc] for the switch
      of [calc]). *)

From Stdlib Require Import ZArith List Bool Lia QArith Qround Lqa Floats.
Import ListNotations.
Local Open Scope Z_scope.

(** ** The scalar parameter of the template *)

Class Scalar (T : Type) : Type := {
  lt : T -> T -> bool;        (* operator<  *)
  eq : T -> T -> bool;        (* operator== *)
  add : T -> T -> T;
  sub : T -> T -> T;
  mul : T -> T -> T;
  div : T -> T -> T;
  pow : T -> T -> T;          (* pow for double, powf for float *)
  of_int : Z -> T             (* conversion of an int constant *)
}.

(** [a > b] on the scalar types is [b < a]. *)
Definition gt {T} `{Scalar T} (a b : T) : bool := lt b a.

(** [a <= b]: used by the statements only, the code never calls it. *)
Definition le {T} `{Scalar T} (a b : T) : bool := lt a b || eq a b.

Declare Scope scalar_scope.
Delimit Scope scalar_scope with sc.
Notation "a + b" := (add a b) : scalar_scope.
Notation "a - b" := (sub a b) : scalar_scope.
Notation "a * b" := (mul a b) : scalar_scope.
Notation "a / b" := (div a b) : scalar_scope.
Notation "a ^ b" := (pow a b) : scalar_scope.
(* The int constants of the code, converted to the scalar type. *)
Notation "0" := (of_int 0) : scalar_scope.
Notation "1" := (of_int 1) : scalar_scope.
Notation "2" := (of_int 2) : scalar_scope.
Notation "3" := (of_int 3) : scalar_scope.

(** Laws of the comparisons.  Values that compare with nothing (not even with
    themselves) are allowed; on the others [<] is a strict total order
    compatible with [==]. *)
Class ScalarOrder (T : Type) `{Scalar T} : Prop := {
  eq_sym : forall a b : T, eq a b = eq b a;
  le_not_gt : forall a b : T, le a b = true -> lt b a = false;
  le_ordered : forall a b : T, le a b = true -> eq a a = true /\ eq b b = true;
  lt_total : forall a b : T,
      eq a a = true -> eq b b = true -> le a b = true \/ lt b a = true;
  le_lt_trans : forall a b c : T, le a b = true -> lt b c = true -> lt a c = true;
  lt_le_trans : forall a b c : T, lt a b = true -> le b c = true -> lt a c = true;
  eq_le_trans : forall a b c : T, eq a b = true -> le b c = true -> le a c = true;
  le_eq_trans : forall a b c : T, le a b = true -> eq b c = true -> le a c = true
}.

(** A difference is zero only between equal scalars (no flush to zero). *)
Class ScalarSub (T : Type) `{Scalar T} : Prop := {
  sub_zero : forall a b : T, eq (sub a b) (of_int 0) = true -> eq a b = true
}.

(** ** Faults and the computation monad *)

Inductive fault : Type :=
| OutOfBounds      (* a read outside a borrowed array *)
| NoReturnValue    (* the loop of value ended without return *)
| NoReturnCalc.    (* the switch of calc matched no case *)

Inductive result (T A : Type) : Type :=
| Ok (a : A) (divisors : list T)
| Fault (f : fault).
Arguments Ok {T A} a divisors.
Arguments Fault {T A} f.

Definition ret {T A} (a : A) : result T A := Ok a [].

Definition fail {T A} (f : fault) : result T A := Fault f.

Definition bind {T A B} (c : result T A) (k : A -> result T B) : result T B :=
  match c with
  | Ok a l1 =>
      match k a with
      | Ok b l2 => Ok b (l1 ++ l2)
      | Fault f => Fault f
      end
  | Fault f => Fault f
  end.

Notation "x <- c1 ;; c2" := (bind c1 (fun x => c2))
  (at level 100, c1 at next level, right associativity).

(** The division of the scalar type, logged. *)
Definition divide {T} `{Scalar T} (a b : T) : result T T := Ok (a / b)%sc [b].

(** ** The object *)

Definition Hermite : Z := 10.
Definition Catmull : Z := 11.

(** Degree 1, the default of the constructor, has no name in the code. *)
Definition Linear : Z := 1.

Record Spline (T : Type) : Type := mkSpline {
  _x : list T;
  _y : list T;
  _m : list T;
  _degree : Z;
  _length : Z;
  _prev_point : Z
}.
Arguments mkSpline {T}.
Arguments _x {T}.
Arguments _y {T}.
Arguments _m {T}.
Arguments _degree {T}.
Arguments _length {T}.
Arguments _prev_point {T}.

Section Model.

Context {T : Type} `{ST : Scalar T}.

Definition set_prev_point (p : Z) (s : Spline T) : Spline T :=
  mkSpline (_x s) (_y s) (_m s) (_degree s) (_length s) p.

(** [a[i]], when it is a cell of the array. *)
Definition sample (a : list T) (i : Z) : option T :=
  if i <? 0 then None else nth_error a (Z.to_nat i).

Definition rd (a : list T) (i : Z) : result T T :=
  match sample a i with
  | Some v => ret v
  | None => fail OutOfBounds
  end.

(** *** Configuration *)

Definition setPoints (x y : list T) (numPoints : Z) (s : Spline T) : Spline T :=
  mkSpline x y (_m s) (_degree s) numPoints (_prev_point s).

Definition setPoints_m (x y m : list T) (numPoints : Z) (s : Spline T) : Spline T :=
  mkSpline x y m (_degree s) numPoints (_prev_point s).

Definition setDegree (degree : Z) (s : Spline T) : Spline T :=
  mkSpline (_x s) (_y s) (_m s) degree (_length s) (_prev_point s).

(** The constructors leave the members they do not assign as they were in the
    storage the object is built in: [raw]. *)
Definition Spline_void (raw : Spline T) : Spline T :=
  set_prev_point 0 raw.

Definition Spline_xy (x y : list T) (numPoints degree : Z) (raw : Spline T) : Spline T :=
  set_prev_point 0 (setDegree degree (setPoints x y numPoints raw)).

Definition Spline_xym (x y m : list T) (numPoints : Z) (raw : Spline T) : Spline T :=
  set_prev_point 0 (setDegree Hermite (setPoints_m x y m numPoints raw)).

(** *** The Hermite basis *)

Definition hermite_00 (t : T) : T := (2 * t ^ 3 - 3 * t ^ 2 + 1)%sc.
Definition hermite_10 (t : T) : T := (t ^ 3 - 2 * t ^ 2 + t)%sc.
Definition hermite_01 (t : T) : T := (3 * t ^ 2 - 2 * t ^ 3)%sc.
Definition hermite_11 (t : T) : T := (t ^ 3 - t ^ 2)%sc.

Definition hermite (t p0 p1 m0 m1 x0 x1 : T) : T :=
  (hermite_00 t * p0 + hermite_10 t * (x1 - x0) * m0
   + hermite_01 t * p1 + hermite_11 t * (x1 - x0) * m1)%sc.

(** *** Tangents and the value on a segment *)

Definition catmull_tangent (s : Spline T) (i : Z) : result T T :=
  xn <- rd (_x s) (i + 1) ;;
  xp <- rd (_x s) (i - 1) ;;
  if eq xn xp then ret 0%sc
  else
    yn <- rd (_y s) (i + 1) ;;
    yp <- rd (_y s) (i - 1) ;;
    xn' <- rd (_x s) (i + 1) ;;
    xp' <- rd (_x s) (i - 1) ;;
    divide (yn - yp)%sc (xn' - xp')%sc.

Definition calc (s : Spline T) (x : T) (i : Z) : result T T :=
  if _degree s =? 0 then rd (_y s) i
  else if _degree s =? 1 then
    xi <- rd (_x s) i ;;
    xi1 <- rd (_x s) (i + 1) ;;
    if eq xi xi1 then rd (_y s) i
    else
      yi <- rd (_y s) i ;;
      yi1 <- rd (_y s) (i + 1) ;;
      q <- divide ((yi1 - yi) * (x - xi))%sc (xi1 - xi)%sc ;;
      ret (yi + q)%sc
  else if _degree s =? Hermite then
    xi <- rd (_x s) i ;;
    xi1 <- rd (_x s) (i + 1) ;;
    t <- divide (x - xi)%sc (xi1 - xi)%sc ;;
    yi <- rd (_y s) i ;;
    yi1 <- rd (_y s) (i + 1) ;;
    mi <- rd (_m s) i ;;
    mi1 <- rd (_m s) (i + 1) ;;
    ret (hermite t yi yi1 mi mi1 xi xi1)
  else if _degree s =? Catmull then
    if i =? 0 then rd (_y s) 1
    else if i =? _length s - 2 then rd (_y s) (_length s - 2)
    else
      xi <- rd (_x s) i ;;
      xi1 <- rd (_x s) (i + 1) ;;
      t <- divide (x - xi)%sc (xi1 - xi)%sc ;;
      m0 <- (if i =? 0 then ret 0%sc else catmull_tangent s i) ;;
      m1 <- (if i =? _length s - 1 then ret 0%sc else catmull_tangent s (i + 1)) ;;
      yi <- rd (_y s) i ;;
      yi1 <- rd (_y s) (i + 1) ;;
      ret (hermite t yi yi1 m0 m1 xi xi1)
  else fail NoReturnCalc.

(** *** Evaluation *)

(** The loop of [value]: [n] iterations are left, the counter is [i]. *)
Fixpoint value_loop (s : Spline T) (x : T) (n : nat) (i : Z) : result T (T * Spline T) :=
  match n with
  | O => fail NoReturnValue
  | S n' =>
      let index := Z.rem (i + _prev_point s) (_length s) in
      xi <- rd (_x s) index ;;
      if eq xi x then
        let s' := set_prev_point index s in
        yi <- rd (_y s') index ;;
        ret (yi, s')
      else
        inside <- (if lt xi x
                   then xi1 <- rd (_x s) (index + 1) ;; ret (lt x xi1)
                   else ret false) ;;
        if inside then
          let s' := set_prev_point index s in
          v <- calc s' x index ;;
          ret (v, s')
        else value_loop s x n' (i + 1)
  end.

Definition value (s : Spline T) (x : T) : result T (T * Spline T) :=
  x0 <- rd (_x s) 0 ;;
  if gt x0 x then
    y0 <- rd (_y s) 0 ;;
    ret (y0, s)
  else
    xl <- rd (_x s) (_length s - 1) ;;
    if lt xl x then
      yl <- rd (_y s) (_length s - 1) ;;
      ret (yl, s)
    else value_loop s x (Z.to_nat (_length s)) 0.

End Model.

(** ** What the statements speak of *)

Section Statements.

Context {T : Type} `{ST : Scalar T}.

(** [x[i] <= x[j]] whenever [i <= j], [i = j] included: with a scalar type that
    has unordered values, no sample abscissa is one of them. *)
Fixpoint nondecreasing (l : list T) : bool :=
  match l with
  | [] => true
  | a :: t => forallb (le a) l && nondecreasing t
  end.

(** A configured table: [N >= 1] samples, the two arrays hold [N] cells each,
    the abscissae are sorted. *)
Definition configured (s : Spline T) : bool :=
  (1 <=? _length s)
  && (Z.of_nat (length (_x s)) =? _length s)
  && (Z.of_nat (length (_y s)) =? _length s)
  && nondecreasing (_x s).

(** The tangent array holds [N] cells as well. *)
Definition with_tangents (s : Spline T) : bool :=
  Z.of_nat (length (_m s)) =? _length s.

(** Index [j] is an exact match for [x]. *)
Definition exact (s : Spline T) (x : T) (j : Z) : bool :=
  match sample (_x s) j with
  | Some xj => eq xj x
  | None => false
  end.

(** Index [j] starts a segment that contains [x]: [x[j] < x < x[j+1]]. *)
Definition inside (s : Spline T) (x : T) (j : Z) : bool :=
  match sample (_x s) j, sample (_x s) (j + 1) with
  | Some xj, Some xn => lt xj x && lt x xn
  | _, _ => false
  end.

Definition hit (s : Spline T) (x : T) (j : Z) : bool :=
  exact s x j || inside s x j.

(** What [value] returns once the scan has stopped at index [j]. *)
Definition result_at (s : Spline T) (x : T) (j : Z) : result T (T * Spline T) :=
  let s' := set_prev_point j s in
  if exact s x j then yj <- rd (_y s') j ;; ret (yj, s')
  else v <- calc s' x j ;; ret (v, s').

(** The [k]-th index the scan looks at. *)
Definition scan_index (s : Spline T) (k : Z) : Z :=
  Z.rem (k + _prev_point s) (_length s).

(** Past the two range tests no sample lies strictly below the query at the
    last index, so the scan never reads [_x[_length]]. *)
Definition not_above (s : Spline T) (x : T) : Prop :=
  forall xl, sample (_x s) (_length s - 1) = Some xl -> lt xl x = false.

(** The degree is one of the four cases of the switch of [calc], and the
    tangent array is there when the case reads it. *)
Definition supported (s : Spline T) : bool :=
  (_degree s =? 0) || (_degree s =? 1) || (_degree s =? Catmull)
  || ((_degree s =? Hermite) && with_tangents s).

(** The formulas of the specification, in its words. *)
Definition spec_linear (xi xi1 yi yi1 x : T) : T :=
  (yi + (yi1 - yi) * (x - xi) / (xi1 - xi))%sc.

Definition spec_h00 (t : T) : T := (2 * t ^ 3 - 3 * t ^ 2 + 1)%sc.
Definition spec_h10 (t : T) : T := (t ^ 3 - 2 * t ^ 2 + t)%sc.
Definition spec_h01 (t : T) : T := (3 * t ^ 2 - 2 * t ^ 3)%sc.
Definition spec_h11 (t : T) : T := (t ^ 3 - t ^ 2)%sc.

Definition spec_hermite (xi xi1 yi yi1 mi mi1 x : T) : T :=
  let t := ((x - xi) / (xi1 - xi))%sc in
  (spec_h00 t * yi + spec_h10 t * (xi1 - xi) * mi
   + spec_h01 t * yi1 + spec_h11 t * (xi1 - xi) * mi1)%sc.

Definition spec_tangent (xp xn yp yn : T) : T :=
  ((yn - yp) / (xn - xp))%sc.

(** [x[i] < x[j]] whenever [i < j]: no abscissa is repeated. *)
Fixpoint increasing (l : list T) : bool :=
  match l with
  | [] => true
  | a :: t => forallb (lt a) t && increasing t
  end.

(** What the caller of [value] receives: the scalar (with the divisions of
    the run), not the object. *)
Definition answer (r : result T (T * Spline T)) : result T T :=
  match r with
  | Ok (v, _) l => Ok v l
  | Fault f => Fault f
  end.

(** No divisor of a run is zero. *)
Definition nonzero_divisors (l : list T) : Prop :=
  forall d, In d l -> eq d 0%sc = false.

End Statements.

(** ** The objects a program can hold *)

(** An object is built by one of the three constructors, reconfigured by the
    setters and queried by [value]; there is no other access to its members. *)
Inductive reachable {T : Type} `{Scalar T} : Spline T -> Prop :=
| reach_void (raw : Spline T) :
    reachable (Spline_void raw)
| reach_xy (x y : list T) (numPoints degree : Z) (raw : Spline T) :
    reachable (Spline_xy x y numPoints degree raw)
| reach_xym (x y m : list T) (numPoints : Z) (raw : Spline T) :
    reachable (Spline_xym x y m numPoints raw)
| reach_setPoints (x y : list T) (numPoints : Z) (s : Spline T) :
    reachable s -> reachable (setPoints x y numPoints s)
| reach_setPoints_m (x y m : list T) (numPoints : Z) (s : Spline T) :
    reachable s -> reachable (setPoints_m x y m numPoints s)
| reach_setDegree (degree : Z) (s : Spline T) :
    reachable s -> reachable (setDegree degree s)
| reach_value (s : Spline T) (x v : T) (s' : Spline T) (l : list T) :
    reachable s -> value s x = Ok (v, s') l -> reachable s'.

(** ** Exact rational scalars, to run the model on concrete tables *)

Definition Qlt_bool (a b : Q) : bool := negb (Qle_bool b a).

(** The power at the integer part of the exponent: exact at 2 and 3, the only
    exponents of the code. *)
Definition Qpow (a b : Q) : Q := Qpower a (Qfloor b).

#[export] Instance Q_scalar : Scalar Q := {
  lt := Qlt_bool;
  eq := Qeq_bool;
  add := Qplus;
  sub := Qminus;
  mul := Qmult;
  div := Qdiv;
  pow := Qpow;
  of_int := inject_Z
}.

Definition raw0 : Spline Q := mkSpline [] [] [] 0 0 0.

(** The table of the specification's scenario: samples of the square. *)
Definition squares (degree : Z) : Spline Q :=
  Spline_xy [0; 1; 2; 3]%Q [0; 1; 4; 9]%Q 4 degree raw0.

(** The same table with the tangents of the square, [2 x]. *)
Definition squares_m : Spline Q :=
  Spline_xym [0; 1; 2; 3]%Q [0; 1; 4; 9]%Q [0; 2; 4; 6]%Q 4 raw0.

(** Tables with a repeated abscissa. *)
Definition twice : Spline Q :=
  Spline_xy [0; 0]%Q [1; 2]%Q 2 Linear raw0.

Definition late_pair : Spline Q :=
  Spline_xy [0; 1; 1]%Q [1; 2; 3]%Q 3 Linear raw0.

Definition thrice : Spline Q :=
  Spline_xy [0; 0; 0]%Q [1; 2; 3]%Q 3 Linear raw0.

(** An object whose cursor was left at 1 by a query on a first table, and
    that was then given the table [twice]. *)
Definition first_table : Spline Q :=
  Spline_xy [0; 1]%Q [1; 2]%Q 2 Linear raw0.

Definition reconfigured : Spline Q :=
  match value first_table 1%Q with
  | Ok (_, s') _ => setPoints [0; 0]%Q [1; 2]%Q 2 s'
  | Fault _ => first_table
  end.

(** The scenario's table with the cursor left at 2 by an earlier query. *)
Definition cursor_at_2 : Spline Q := set_prev_point 2 (squares Linear).

(** The shortest table with a segment. *)
Definition two_points : Spline Q :=
  Spline_xy [0; 1]%Q [5; 7]%Q 2 Catmull raw0.

(** Polynomials over the rationals, to sample tables from. *)
Definition affine (a b z : Q) : Q := (a * z + b)%Q.

Definition cubic (a b c d z : Q) : Q :=
  (a * z * z * z + b * z * z + c * z + d)%Q.

Definition cubic_slope (a b c z : Q) : Q :=
  (3 * a * z * z + 2 * b * z + c)%Q.

(** The squares sampled at five points, for a segment with two neighbours
    on each side. *)
Definition five_squares (degree : Z) : Spline Q :=
  Spline_xy [0; 1; 2; 3; 4]%Q [0; 1; 4; 9; 16]%Q 5 degree raw0.

(** Samples of [z |-> 2 z + 1]. *)
Definition line_samples (degree : Z) : Spline Q :=
  Spline_xy [0; 1; 3; 4]%Q [1; 3; 7; 9]%Q 4 degree raw0.

(** Samples of the cube with its slopes. *)
Definition cubes_m : Spline Q :=
  Spline_xym [0; 1; 2; 3]%Q [0; 1; 8; 27]%Q [0; 3; 12; 27]%Q 4 raw0.

(** Counts that do not fit the arrays: none, and one too many. *)
Definition no_points : Spline Q :=
  Spline_xy [0; 1]%Q [5; 7]%Q 0 Linear raw0.

Definition one_too_many : Spline Q :=
  Spline_xy [0; 1]%Q [5; 7]%Q 3 Linear raw0.

(** An object whose cursor was left at 3 by a query on the squares, and
    that was then given a table of two samples. *)
Definition shrunk : Spline Q :=
  match value (squares Linear) 3%Q with
  | Ok (_, s') _ => setPoints [0; 1]%Q [5; 7]%Q 2 s'
  | Fault _ => squares Linear
  end.

(** ** IEEE binary64 scalars

    The comparisons and the four operations of [double] are those of the
    primitive floats.  The power function of the C library has no counterpart
    there: it is a parameter, of which nothing is assumed. *)

Definition double_of_int (z : Z) : float :=
  match z with
  | Z0 => PrimFloat.zero
  | Zpos _ => PrimFloat.of_uint63 (Uint63.of_Z z)
  | Zneg p => PrimFloat.opp (PrimFloat.of_uint63 (Uint63.of_Z (Zpos p)))
  end.

Definition double_scalar (pw : float -> float -> float) : Scalar float := {|
  lt := PrimFloat.ltb;
  eq := PrimFloat.eqb;
  add := PrimFloat.add;
  sub := PrimFloat.sub;
  mul := PrimFloat.mul;
  div := PrimFloat.div;
  pow := pw;
  of_int := double_of_int
|}.

(** The comparison of the specification of the floats, on two scalars. *)
Definition double_compare (a b : float) : option comparison :=
  SFcompare (Prim2SF a) (Prim2SF b).

(** Case analysis on the integer comparisons inside [SFcompare]. *)
Ltac compare_cases :=
  repeat match goal with
    | |- context [Z.compare ?a ?b] => destruct (Z.compare_spec a b)
    | |- context [Pos.compare_cont Eq ?a ?b] =>
        change (Pos.compare_cont Eq a b) with (Pos.compare a b)
    | |- context [Pos.compare ?a ?b] => destruct (Pos.compare_spec a b)
    end.

(** A stand-in for the power where no case of the code calls it. *)
Definition no_pow (t e : float) : float := PrimFloat.nan.

(** The scenario's table in binary64, degree 1, with the cursor left at 2
    by an earlier query. *)
Definition squares_double : Spline float :=
  set_prev_point 2
    (Spline_xy [0; 1; 2; 3]%float [0; 1; 4; 9]%float 4 Linear
       (mkSpline [] [] [] 0 0 0)).

(** ** Reads and the monad *)

Section Reads.

Context {T : Type} `{ST : Scalar T}.

Lemma sample_range (a : list T) (i : Z) (v : T) :
  sample a i = Some v -> 0 <= i < Z.of_nat (length a).
Proof.
  unfold sample. destruct (Z.ltb_spec i 0) as [Hneg | Hpos]; [discriminate |].
  intros Hn. assert (Hlt : (Z.to_nat i < length a)%nat).
  { apply nth_error_Some. congruence. }
  lia.
Qed.

Lemma sample_some (a : list T) (i : Z) :
  0 <= i < Z.of_nat (length a) -> exists v, sample a i = Some v.
Proof.
  intros Hi. unfold sample. destruct (Z.ltb_spec i 0) as [Hneg | Hpos]; [lia |].
  destruct (nth_error a (Z.to_nat i)) as [v |] eqn:E; [now exists v |].
  apply nth_error_None in E. lia.
Qed.

Lemma rd_sample (a : list T) (i : Z) (v : T) :
  sample a i = Some v -> rd a i = Ok v [].
Proof. intros E. unfold rd. now rewrite E. Qed.

Lemma bind_ret_l {A B : Type} (a : A) (k : A -> result T B) :
  bind (ret a) k = k a.
Proof. unfold bind, ret. destruct (k a); reflexivity. Qed.

Lemma bind_Ok_nil {A B : Type} (a : A) (k : A -> result T B) :
  bind (Ok a []) k = k a.
Proof. apply bind_ret_l. Qed.

Lemma bind_ret_r {A : Type} (c : result T A) :
  bind c (fun a => ret a) = c.
Proof. destruct c; simpl; [now rewrite app_nil_r | reflexivity]. Qed.

Lemma bind_Ok_inv {A B : Type} (c : result T A) (k : A -> result T B) b l :
  bind c k = Ok b l ->
  exists a l1 l2, c = Ok a l1 /\ k a = Ok b l2 /\ l = l1 ++ l2.
Proof.
  destruct c as [a l1 | f]; simpl; [| discriminate].
  destruct (k a) as [b' l2 | f] eqn:E; [| discriminate].
  intros [= <- <-]. now exists a, l1, l2.
Qed.

Lemma bind_Fault_inv {A B : Type} (c : result T A) (k : A -> result T B) f :
  bind c k = Fault f ->
  c = Fault f \/ exists a l, c = Ok a l /\ k a = Fault f.
Proof.
  destruct c as [a l1 | f']; simpl.
  - destruct (k a) as [b l2 | f''] eqn:E; [discriminate |].
    intros [= <-]. right. now exists a, l1.
  - intros [= <-]. now left.
Qed.

Lemma rd_Fault (a : list T) (i : Z) (f : fault) :
  rd a i = Fault f -> f = OutOfBounds.
Proof. unfold rd. destruct (sample a i); simpl; [discriminate | now intros [= <-]]. Qed.

Lemma rd_Ok (a : list T) (i : Z) (v : T) (l : list T) :
  rd a i = Ok v l -> sample a i = Some v /\ l = [].
Proof. unfold rd. destruct (sample a i); simpl; [now intros [= <- <-] | discriminate]. Qed.

End Reads.

(** ** The order of the scalars and sorted tables *)

Section Order.

Context {T : Type} `{SO : ScalarOrder T}.

Lemma lt_le (a b : T) : lt a b = true -> le a b = true.
Proof. intros E. unfold le. now rewrite E. Qed.

Lemma eq_le (a b : T) : eq a b = true -> le a b = true.
Proof. intros E. unfold le. rewrite E. apply orb_true_r. Qed.

Lemma eq_ge (a b : T) : eq a b = true -> le b a = true.
Proof. intros E. apply eq_le. now rewrite eq_sym. Qed.

Lemma lt_not_eq (a b : T) : lt a b = true -> eq a b = false.
Proof.
  intros Hlt. destruct (eq a b) eqn:E; [| reflexivity].
  apply eq_ge, le_not_gt in E. congruence.
Qed.

Lemma le_cases (a b : T) : le a b = true -> lt a b = true \/ eq a b = true.
Proof. unfold le. intros E. now apply orb_true_iff in E. Qed.

Lemma nondecreasing_nth (l : list T) :
  nondecreasing l = true ->
  forall (i j : nat) (a b : T),
    (i <= j)%nat -> nth_error l i = Some a -> nth_error l j = Some b ->
    le a b = true.
Proof.
  induction l as [| h t IH]; intros Hs i j a b Hij Ha Hb.
  - destruct i; discriminate.
  - cbn [nondecreasing] in Hs. apply andb_true_iff in Hs as [Hall Ht].
    destruct i as [| i'].
    + injection Ha as <-. apply nth_error_In in Hb.
      rewrite forallb_forall in Hall. now apply Hall.
    + destruct j as [| j']; [lia |]. simpl in Ha, Hb.
      apply (IH Ht i' j'); [lia | assumption | assumption].
Qed.

Lemma nondecreasing_sample (l : list T) (i j : Z) (a b : T) :
  nondecreasing l = true -> i <= j ->
  sample l i = Some a -> sample l j = Some b -> le a b = true.
Proof.
  intros Hs Hij Ha Hb.
  pose proof (sample_range _ _ _ Ha) as Ri. pose proof (sample_range _ _ _ Hb) as Rj.
  unfold sample in Ha, Hb.
  destruct (Z.ltb_spec i 0); [lia |]. destruct (Z.ltb_spec j 0); [lia |].
  apply (nondecreasing_nth l Hs (Z.to_nat i) (Z.to_nat j)); [lia | assumption | assumption].
Qed.

End Order.

(** ** The scan of [value] *)

Section Scan.

Context {T : Type} `{SO : ScalarOrder T}.

Lemma configured_inv (s : Spline T) :
  configured s = true ->
  1 <= _length s
  /\ Z.of_nat (length (_x s)) = _length s
  /\ Z.of_nat (length (_y s)) = _length s
  /\ nondecreasing (_x s) = true.
Proof.
  unfold configured. rewrite !andb_true_iff.
  intros [[[H1 H2] H3] H4].
  apply Z.leb_le in H1. apply Z.eqb_eq in H2. apply Z.eqb_eq in H3. tauto.
Qed.

Lemma scan_index_range (s : Spline T) (k : Z) :
  1 <= _length s -> 0 <= _prev_point s -> 0 <= k ->
  0 <= scan_index s k < _length s.
Proof.
  intros HN Hc Hk. unfold scan_index. apply Z.rem_bound_pos; lia.
Qed.

Lemma scan_index_mod (s : Spline T) (k : Z) :
  1 <= _length s -> 0 <= _prev_point s -> 0 <= k ->
  scan_index s k = (_prev_point s + k) mod _length s.
Proof.
  intros HN Hc Hk. unfold scan_index.
  rewrite Z.rem_mod_nonneg by lia. f_equal. lia.
Qed.

(** The sorted table read at two indices. *)
Lemma table_le (s : Spline T) (i j : Z) (a b : T) :
  configured s = true -> i <= j ->
  sample (_x s) i = Some a -> sample (_x s) j = Some b -> le a b = true.
Proof.
  intros Hc. apply configured_inv in Hc as (_ & _ & _ & Hs).
  now apply nondecreasing_sample.
Qed.

Lemma x_some (s : Spline T) (i : Z) :
  configured s = true -> 0 <= i < _length s -> exists v, sample (_x s) i = Some v.
Proof.
  intros Hc Hi. apply configured_inv in Hc as (_ & Hx & _ & _).
  apply sample_some. lia.
Qed.

Lemma y_some (s : Spline T) (i : Z) :
  configured s = true -> 0 <= i < _length s -> exists v, sample (_y s) i = Some v.
Proof.
  intros Hc Hi. apply configured_inv in Hc as (_ & _ & Hy & _).
  apply sample_some. lia.
Qed.

Lemma x_range (s : Spline T) (i : Z) (v : T) :
  configured s = true -> sample (_x s) i = Some v -> 0 <= i < _length s.
Proof.
  intros Hc E. apply configured_inv in Hc as (_ & Hx & _ & _).
  apply sample_range in E. lia.
Qed.

(** One iteration of the loop. *)
Lemma value_loop_step (s : Spline T) (x : T) (n : nat) (i : Z) :
  configured s = true -> 0 <= _prev_point s -> 0 <= i -> not_above s x ->
  value_loop s x (S n) i =
  if hit s x (scan_index s i) then result_at s x (scan_index s i)
  else value_loop s x n (i + 1).
Proof.
  intros Hc Hp Hi Hab.
  pose proof (configured_inv s Hc) as (HN & Hx & Hy & Hs).
  pose proof (scan_index_range s i HN Hp Hi) as Hj.
  cbn [value_loop]. fold (scan_index s i).
  set (j := scan_index s i) in *.
  destruct (x_some s j Hc Hj) as [xj Exj].
  unfold hit, result_at, exact, inside. rewrite Exj.
  rewrite (rd_sample _ _ _ Exj), bind_Ok_nil.
  destruct (eq xj x) eqn:Eeq; [reflexivity |].
  cbn [orb].
  destruct (lt xj x) eqn:Elt.
  - assert (Hj1 : 0 <= j + 1 < _length s).
    { destruct (Z.eq_dec j (_length s - 1)) as [-> | Hne]; [| lia].
      rewrite (Hab _ Exj) in Elt. discriminate. }
    destruct (x_some s (j + 1) Hc Hj1) as [xn Exn].
    rewrite Exn, (rd_sample _ _ _ Exn), bind_Ok_nil, bind_ret_l. cbn [andb].
    reflexivity.
  - rewrite bind_ret_l. cbn [andb].
    destruct (sample (_x s) (j + 1)); reflexivity.
Qed.

(** The loop returns at the first index of the scan that is a hit. *)
Lemma value_loop_first (s : Spline T) (x : T) :
  configured s = true -> 0 <= _prev_point s -> not_above s x ->
  forall (n : nat) (i k : Z),
    0 <= i <= k -> k < i + Z.of_nat n ->
    hit s x (scan_index s k) = true ->
    (forall k', i <= k' < k -> hit s x (scan_index s k') = false) ->
    value_loop s x n i = result_at s x (scan_index s k).
Proof.
  intros Hc Hp Hab. induction n as [| n IH]; intros i k Hik Hk Hhit Hfirst; [lia |].
  rewrite value_loop_step by (assumption || lia).
  destruct (Z.eq_dec i k) as [-> | Hne].
  - now rewrite Hhit.
  - rewrite (Hfirst i) by lia.
    apply IH; [lia | lia | assumption |]. intros k' Hk'. apply Hfirst. lia.
Qed.

(** With no hit among the indices left, the loop ends without [return]. *)
Lemma value_loop_none (s : Spline T) (x : T) :
  configured s = true -> 0 <= _prev_point s -> not_above s x ->
  forall (n : nat) (i : Z),
    0 <= i ->
    (forall k, i <= k < i + Z.of_nat n -> hit s x (scan_index s k) = false) ->
    value_loop s x n i = Fault NoReturnValue.
Proof.
  intros Hc Hp Hab. induction n as [| n IH]; intros i Hi Hnone; [reflexivity |].
  rewrite value_loop_step by (assumption || lia).
  rewrite (Hnone i) by lia.
  apply IH; [lia |]. intros k Hk. apply Hnone. lia.
Qed.

(** The least index below [k] at which a boolean predicate holds. *)
Lemma least_true (P : Z -> bool) (k : Z) :
  0 <= k -> P k = true ->
  exists k0, 0 <= k0 <= k /\ P k0 = true /\ forall k', 0 <= k' < k0 -> P k' = false.
Proof.
  induction k as [k IH] using (well_founded_induction (Z.lt_wf 0)). intros Hpos Hk.
  destruct (forallb (fun n => negb (P (Z.of_nat n))) (seq 0 (Z.to_nat k))) eqn:E.
  - exists k. repeat split; try lia; try assumption.
    intros k' Hk'. rewrite forallb_forall in E.
    specialize (E (Z.to_nat k')). rewrite Z2Nat.id in E by lia.
    apply negb_true_iff, E, in_seq. lia.
  - assert (Hex : exists n, In n (seq 0 (Z.to_nat k)) /\ negb (P (Z.of_nat n)) = false).
    { clear -E. induction (seq 0 (Z.to_nat k)) as [| a l IHl]; [discriminate |].
      simpl in E. apply andb_false_iff in E as [E | E].
      - exists a. split; [now left | assumption].
      - destruct (IHl E) as (n & Hn & Hp). exists n. split; [now right | assumption]. }
    destruct Hex as (n & Hn & Hp). apply in_seq in Hn. apply negb_false_iff in Hp.
    destruct (IH (Z.of_nat n)) as (k0 & Hk0 & Hp0 & Hmin); [lia | lia | assumption |].
    exists k0. repeat split; try lia; assumption.
Qed.

(** Every index of the table is looked at by the scan. *)
Lemma scan_index_onto (s : Spline T) (j : Z) :
  1 <= _length s -> 0 <= _prev_point s -> 0 <= j < _length s ->
  exists k, 0 <= k < _length s /\ scan_index s k = j.
Proof.
  intros HN Hp Hj. exists ((j - _prev_point s) mod _length s).
  assert (Hk : 0 <= (j - _prev_point s) mod _length s < _length s)
    by (apply Z.mod_pos_bound; lia).
  split; [exact Hk |].
  rewrite scan_index_mod by lia.
  rewrite Zplus_mod_idemp_r.
  replace (_prev_point s + (j - _prev_point s)) with j by lia.
  apply Z.mod_small. lia.
Qed.

(** With a hit somewhere in the table, [value_loop] returns at the first hit
    of the scan. *)
Lemma value_loop_hit (s : Spline T) (x : T) (j : Z) :
  configured s = true -> 0 <= _prev_point s -> not_above s x ->
  0 <= j < _length s -> hit s x j = true ->
  exists k, 0 <= k < _length s
    /\ hit s x (scan_index s k) = true
    /\ (forall k', 0 <= k' < k -> hit s x (scan_index s k') = false)
    /\ value_loop s x (Z.to_nat (_length s)) 0 = result_at s x (scan_index s k).
Proof.
  intros Hc Hp Hab Hj Hhit.
  pose proof (configured_inv s Hc) as (HN & _).
  destruct (scan_index_onto s j HN Hp Hj) as (k1 & Hk1 & Ek1).
  destruct (least_true (fun k => hit s x (scan_index s k)) k1) as (k & Hk & Hk_hit & Hk_min);
    [lia | now rewrite Ek1 |].
  exists k. repeat split; try lia; try assumption.
  apply value_loop_first; try assumption; lia.
Qed.

End Scan.

(** ** Hits of a sorted table *)

Section Located.

Context {T : Type} `{SO : ScalarOrder T}.

(** A query that passed a sample has an exact match or a containing segment
    at that index or later. *)
Lemma hit_from (s : Spline T) (x xl : T) :
  configured s = true ->
  sample (_x s) (_length s - 1) = Some xl -> le x xl = true ->
  forall (m : nat) (j : Z) (xj : T),
    j = _length s - 1 - Z.of_nat m -> 0 <= j ->
    sample (_x s) j = Some xj -> le xj x = true ->
    exists j', j <= j' < _length s /\ hit s x j' = true.
Proof.
  intros Hc Exl Hxl. induction m as [| m IH]; intros j xj Ej Hj Exj Hle.
  - replace j with (_length s - 1) in * by lia.
    exists (_length s - 1). split; [lia |].
    assert (xj = xl) by congruence. subst xj.
    unfold hit, exact. rewrite Exl.
    destruct (le_cases _ _ Hle) as [Hlt | Heq]; [| now rewrite Heq].
    apply le_not_gt in Hxl. congruence.
  - destruct (le_cases _ _ Hle) as [Hlt | Heq].
    2:{ exists j. split; [lia |]. unfold hit, exact. now rewrite Exj, Heq. }
    assert (Hj1 : 0 <= j + 1 < _length s) by lia.
    destruct (x_some s (j + 1) Hc Hj1) as [xn Exn].
    assert (Hox : eq x x = true) by (apply (le_ordered _ _ Hle)).
    assert (Hon : eq xn xn = true).
    { apply (le_ordered xj xn). apply (table_le s j (j + 1)); (assumption || lia). }
    destruct (lt_total xn x Hon Hox) as [Hnx | Hxn].
    + destruct (IH (j + 1) xn) as (j' & Hj' & Hhit); try assumption; try lia.
      exists j'. split; [lia | assumption].
    + exists j. split; [lia |]. unfold hit, inside.
      rewrite Exj, Exn, Hlt, Hxn. apply orb_true_r.
Qed.

(** C9, the order argument: a query within the range of a sorted table has a
    hit. *)
Lemma hit_exists (s : Spline T) (x x0 xl : T) :
  configured s = true ->
  sample (_x s) 0 = Some x0 -> sample (_x s) (_length s - 1) = Some xl ->
  le x0 x = true -> le x xl = true ->
  exists j, 0 <= j < _length s /\ hit s x j = true.
Proof.
  intros Hc E0 El H0 Hl.
  pose proof (configured_inv s Hc) as (HN & _).
  destruct (hit_from s x xl Hc El Hl (Z.to_nat (_length s - 1)) 0 x0) as (j & Hj & Hhit);
    try assumption; try lia.
  exists j. split; [lia | assumption].
Qed.

(** In a sorted table the segment that contains the query is the only hit. *)
Lemma inside_unique (s : Spline T) (x : T) (i j : Z) :
  configured s = true -> inside s x i = true -> hit s x j = true -> j = i.
Proof.
  intros Hc Hi Hj. unfold inside in Hi.
  destruct (sample (_x s) i) as [xi |] eqn:Exi; [| discriminate].
  destruct (sample (_x s) (i + 1)) as [xi1 |] eqn:Exi1; [| discriminate].
  apply andb_true_iff in Hi as [Hlo Hhi].
  assert (Hlo' : lt x xi = false) by (apply le_not_gt, lt_le, Hlo).
  assert (Hhi' : lt xi1 x = false) by (apply le_not_gt, lt_le, Hhi).
  unfold hit, exact, inside in Hj.
  destruct (sample (_x s) j) as [xj |] eqn:Exj; [| discriminate].
  destruct (Z.lt_trichotomy j i) as [Hlt | [Heq | Hgt]]; [| assumption |]; exfalso.
  - (* j < i: x[j] <= x[j+1] <= x[i] < x *)
    assert (Hji : lt xj x = true).
    { apply (le_lt_trans xj xi x); [| assumption].
      apply (table_le s j i); (assumption || lia). }
    apply orb_true_iff in Hj as [Hex | Hin].
    + rewrite (lt_not_eq _ _ Hji) in Hex. discriminate.
    + destruct (sample (_x s) (j + 1)) as [xj1 |] eqn:Exj1; [| discriminate].
      apply andb_true_iff in Hin as [_ Hin].
      assert (lt x xi = true); [| congruence].
      apply (lt_le_trans x xj1 xi); [assumption |].
      apply (table_le s (j + 1) i); (assumption || lia).
  - (* i + 1 <= j: x < x[i+1] <= x[j] *)
    assert (Hxj : lt x xj = true).
    { apply (lt_le_trans x xi1 xj); [assumption |].
      apply (table_le s (i + 1) j); (assumption || lia). }
    assert (Hxj' : lt xj x = false) by (apply le_not_gt, lt_le, Hxj).
    apply orb_true_iff in Hj as [Hex | Hin].
    + rewrite eq_sym, (lt_not_eq _ _ Hxj) in Hex. discriminate.
    + destruct (sample (_x s) (j + 1)); [| discriminate].
      rewrite Hxj' in Hin. discriminate.
Qed.

(** In a sorted table a query that equals a sample's abscissa lies strictly
    inside no segment. *)
Lemma exact_no_inside (s : Spline T) (x : T) (i j : Z) :
  configured s = true -> exact s x i = true -> inside s x j = false.
Proof.
  intros Hc Hi. unfold exact in Hi.
  destruct (sample (_x s) i) as [xi |] eqn:Exi; [| discriminate].
  unfold inside.
  destruct (sample (_x s) j) as [xj |] eqn:Exj; [| reflexivity].
  destruct (sample (_x s) (j + 1)) as [xj1 |] eqn:Exj1; [| reflexivity].
  apply andb_false_iff.
  destruct (Z_le_gt_dec i j) as [Hle | Hgt].
  - left. apply le_not_gt. apply (eq_le_trans x xi xj); [now rewrite eq_sym |].
    apply (table_le s i j); (assumption || lia).
  - right. apply le_not_gt. apply (le_eq_trans xj1 xi x); [| assumption].
    apply (table_le s (j + 1) i); (assumption || lia).
Qed.

(** A query within the range passes the two range tests of [value]. *)
Lemma value_in_range (s : Spline T) (x x0 xl : T) :
  sample (_x s) 0 = Some x0 -> sample (_x s) (_length s - 1) = Some xl ->
  lt x x0 = false -> lt xl x = false ->
  value s x = value_loop s x (Z.to_nat (_length s)) 0.
Proof.
  intros E0 El H0 Hl. unfold value, gt.
  rewrite (rd_sample _ _ _ E0), bind_Ok_nil, H0.
  now rewrite (rd_sample _ _ _ El), bind_Ok_nil, Hl.
Qed.

Lemma not_above_le (s : Spline T) (x xl : T) :
  sample (_x s) (_length s - 1) = Some xl -> le x xl = true -> not_above s x.
Proof.
  intros El Hl xl' El'. assert (xl' = xl) by congruence. subst.
  now apply le_not_gt.
Qed.

(** [value] on a query within the range of a sorted table: the first hit of
    the scan decides. *)
Lemma value_scan (s : Spline T) (x x0 xl : T) :
  configured s = true -> 0 <= _prev_point s ->
  sample (_x s) 0 = Some x0 -> sample (_x s) (_length s - 1) = Some xl ->
  le x0 x = true -> le x xl = true ->
  exists k, 0 <= k < _length s
    /\ hit s x (scan_index s k) = true
    /\ (forall k', 0 <= k' < k -> hit s x (scan_index s k') = false)
    /\ value s x = result_at s x (scan_index s k).
Proof.
  intros Hc Hp E0 El H0 Hl.
  destruct (hit_exists s x x0 xl Hc E0 El H0 Hl) as (j & Hj & Hhit).
  destruct (value_loop_hit s x j Hc Hp (not_above_le s x xl El Hl) Hj Hhit)
    as (k & Hk & Hk_hit & Hk_min & Hv).
  exists k. repeat split; try lia; try assumption.
  rewrite <- Hv. apply (value_in_range s x x0 xl); try assumption.
  - now apply le_not_gt.
  - now apply le_not_gt.
Qed.

(** The ends of the table bound every hit. *)
Lemma hit_in_range (s : Spline T) (x : T) (j : Z) :
  configured s = true -> hit s x j = true ->
  exists x0 xl, sample (_x s) 0 = Some x0 /\ sample (_x s) (_length s - 1) = Some xl
    /\ le x0 x = true /\ le x xl = true.
Proof.
  intros Hc Hhit.
  pose proof (configured_inv s Hc) as (HN & _).
  destruct (x_some s 0 Hc) as [x0 E0]; [lia |].
  destruct (x_some s (_length s - 1) Hc) as [xl El]; [lia |].
  exists x0, xl. split; [assumption |]. split; [assumption |].
  unfold hit, exact, inside in Hhit.
  destruct (sample (_x s) j) as [xj |] eqn:Exj; [| discriminate].
  pose proof (x_range s j xj Hc Exj) as Rj.
  assert (H0j : le x0 xj = true) by (apply (table_le s 0 j); (assumption || lia)).
  assert (Hjl : le xj xl = true) by (apply (table_le s j (_length s - 1)); (assumption || lia)).
  apply orb_true_iff in Hhit as [Hex | Hin].
  - split.
    + now apply (le_eq_trans x0 xj x).
    + apply (eq_le_trans x xj xl); [now rewrite eq_sym | assumption].
  - destruct (sample (_x s) (j + 1)) as [xj1 |] eqn:Exj1; [| discriminate].
    apply andb_true_iff in Hin as [Hlo Hhi]. split.
    + apply lt_le. now apply (le_lt_trans x0 xj x).
    + apply lt_le. apply (lt_le_trans x xj1 xl); [assumption |].
      pose proof (x_range s (j + 1) xj1 Hc Exj1).
      apply (table_le s (j + 1) (_length s - 1)); (assumption || lia).
Qed.

(** [value] when the table has a hit at [j] and no other. *)
Lemma value_unique_hit (s : Spline T) (x : T) (j : Z) :
  configured s = true -> 0 <= _prev_point s ->
  hit s x j = true -> (forall j', hit s x j' = true -> j' = j) ->
  value s x = result_at s x j.
Proof.
  intros Hc Hp Hhit Huniq.
  destruct (hit_in_range s x j Hc Hhit) as (x0 & xl & E0 & El & H0 & Hl).
  destruct (value_scan s x x0 xl Hc Hp E0 El H0 Hl) as (k & _ & Hk_hit & _ & Hv).
  now rewrite Hv, (Huniq _ Hk_hit).
Qed.

End Located.

(** ** What a run of [value] or [calc] can end in *)

Section Runs.

Context {T : Type} `{ST : Scalar T}.

Lemma calc_set_prev_point (s : Spline T) (x : T) (i p : Z) :
  calc (set_prev_point p s) x i = calc s x i.
Proof. reflexivity. Qed.

Lemma result_at_exact (s : Spline T) (x : T) (j : Z) (yj : T) :
  exact s x j = true -> sample (_y s) j = Some yj ->
  result_at s x j = Ok (yj, set_prev_point j s) [].
Proof.
  intros He Ey. unfold result_at. rewrite He. cbn [set_prev_point _y].
  now rewrite (rd_sample _ _ _ Ey), bind_Ok_nil.
Qed.

Lemma result_at_inside (s : Spline T) (x : T) (j : Z) :
  exact s x j = false ->
  result_at s x j = (v <- calc s x j ;; ret (v, set_prev_point j s)).
Proof. intros He. unfold result_at. now rewrite He, calc_set_prev_point. Qed.

(** A computation that does not end in the fall-through of the loop. *)
Lemma bind_returns {A B : Type} (c : result T A) (k : A -> result T B) :
  c <> Fault NoReturnValue -> (forall a, k a <> Fault NoReturnValue) ->
  bind c k <> Fault NoReturnValue.
Proof.
  intros Hc Hk E. apply bind_Fault_inv in E as [E | (a & l & _ & E)].
  - now apply Hc.
  - now apply (Hk a).
Qed.

Lemma rd_returns (a : list T) (i : Z) : rd a i <> Fault NoReturnValue.
Proof. intros E. apply rd_Fault in E. discriminate. Qed.

Lemma catmull_tangent_returns (s : Spline T) (i : Z) :
  catmull_tangent s i <> Fault NoReturnValue.
Proof.
  unfold catmull_tangent.
  repeat (apply bind_returns; [apply rd_returns | intros ?]).
  destruct (eq _ _); [discriminate |].
  repeat (apply bind_returns; [apply rd_returns | intros ?]).
  discriminate.
Qed.

Lemma calc_returns (s : Spline T) (x : T) (i : Z) :
  calc s x i <> Fault NoReturnValue.
Proof.
  unfold calc.
  destruct (_degree s =? 0); [apply rd_returns |].
  destruct (_degree s =? 1).
  { repeat (apply bind_returns; [apply rd_returns | intros ?]).
    destruct (eq _ _); [apply rd_returns |].
    repeat (apply bind_returns; [apply rd_returns | intros ?]).
    apply bind_returns; [discriminate | intros ?; discriminate]. }
  destruct (_degree s =? Hermite).
  { repeat (apply bind_returns; [apply rd_returns | intros ?]).
    apply bind_returns; [discriminate | intros ?].
    repeat (apply bind_returns; [apply rd_returns | intros ?]).
    discriminate. }
  destruct (_degree s =? Catmull); [| discriminate].
  destruct (i =? 0) eqn:E0; [apply rd_returns |].
  destruct (i =? _length s - 2); [apply rd_returns |].
  repeat (apply bind_returns; [apply rd_returns | intros ?]).
  apply bind_returns; [discriminate | intros ?].
  apply bind_returns; [apply catmull_tangent_returns | intros ?].
  apply bind_returns.
  { destruct (i =? _length s - 1); [discriminate | apply catmull_tangent_returns]. }
  intros ?.
  repeat (apply bind_returns; [apply rd_returns | intros ?]).
  discriminate.
Qed.

Lemma result_at_returns (s : Spline T) (x : T) (j : Z) :
  result_at s x j <> Fault NoReturnValue.
Proof.
  unfold result_at. destruct (exact s x j).
  - apply bind_returns; [apply rd_returns | intros ?; discriminate].
  - apply bind_returns; [apply calc_returns | intros ?; discriminate].
Qed.

(** A loop that returns stopped at a hit and moved the cursor there. *)
Lemma value_loop_Ok (s : Spline T) (x : T) :
  forall (n : nat) (i : Z) v s' l,
    value_loop s x n i = Ok (v, s') l ->
    exists j, hit s x j = true /\ s' = set_prev_point j s.
Proof.
  induction n as [| n IH]; intros i v s' l E; [discriminate |].
  cbn [value_loop] in E.
  set (j := Z.rem (i + _prev_point s) (_length s)) in *.
  apply bind_Ok_inv in E as (xj & l1 & l2 & Exj & E & _).
  apply rd_Ok in Exj as [Exj _].
  destruct (eq xj x) eqn:Eeq.
  - apply bind_Ok_inv in E as (yj & l3 & l4 & _ & E & _).
    injection E as _ <- _. exists j. split; [| reflexivity].
    unfold hit, exact. now rewrite Exj, Eeq.
  - apply bind_Ok_inv in E as (b & l3 & l4 & Eb & E & _).
    destruct b.
    + apply bind_Ok_inv in E as (w & l5 & l6 & _ & E & _).
      injection E as _ <- _. exists j. split; [| reflexivity].
      unfold hit, inside. rewrite Exj.
      destruct (lt xj x); [| discriminate].
      apply bind_Ok_inv in Eb as (xn & l7 & l8 & Exn & Eb & _).
      apply rd_Ok in Exn as [Exn _]. rewrite Exn.
      injection Eb as -> _. apply orb_true_r.
    + now apply IH in E.
Qed.

(** A call of [value] that returns took a flat-extrapolation branch and left
    the object as it was, or passed both range tests and returned from the
    loop. *)
Lemma value_Ok_cases (s : Spline T) (x v : T) (s' : Spline T) (l : list T) :
  value s x = Ok (v, s') l ->
  (s' = s /\ exists x0, sample (_x s) 0 = Some x0 /\
     (gt x0 x = true \/
      exists xl, sample (_x s) (_length s - 1) = Some xl /\ lt xl x = true))
  \/ ((exists x0 xl, sample (_x s) 0 = Some x0
         /\ sample (_x s) (_length s - 1) = Some xl
         /\ gt x0 x = false /\ lt xl x = false)
      /\ exists j, hit s x j = true /\ s' = set_prev_point j s).
Proof.
  intros E. unfold value in E.
  apply bind_Ok_inv in E as (x0 & l1 & l2 & E0 & E & _).
  apply rd_Ok in E0 as [E0 _].
  destruct (gt x0 x) eqn:Hgt.
  - apply bind_Ok_inv in E as (y0 & l3 & l4 & _ & E & _).
    injection E as _ <- _. left. split; [reflexivity |]. exists x0. auto.
  - apply bind_Ok_inv in E as (xl & l3 & l4 & El & E & _).
    apply rd_Ok in El as [El _].
    destruct (lt xl x) eqn:Hlt.
    + apply bind_Ok_inv in E as (yl & l5 & l6 & _ & E & _).
      injection E as _ <- _. left. split; [reflexivity |]. exists x0.
      split; [assumption |]. right. now exists xl.
    + right. split; [now exists x0, xl |].
      now apply value_loop_Ok in E.
Qed.

Lemma hit_nonneg (s : Spline T) (x : T) (j : Z) : hit s x j = true -> 0 <= j.
Proof.
  unfold hit, exact, inside.
  destruct (sample (_x s) j) as [xj |] eqn:Exj; [| discriminate].
  intros _. now apply sample_range in Exj.
Qed.

(** The cursor of an object a program can hold is never negative: it starts
    at 0 and [value] moves it to indices it has read. *)
Lemma reachable_cursor (s : Spline T) : reachable s -> 0 <= _prev_point s.
Proof.
  induction 1 as [raw | x y n d raw | x y m n raw | x y n s _ IH | x y m n s _ IH
                 | d s _ IH | s x v s' l _ IH E]; cbn; try lia; try assumption.
  apply value_Ok_cases in E as [[-> _] | [_ (j & Hj & ->)]]; [assumption |].
  cbn. now apply hit_nonneg in Hj.
Qed.

End Runs.

(** ** [calc] case by case *)

Section Segments.

Context {T : Type} `{SO : ScalarOrder T}.

Lemma calc_constant (s : Spline T) (x : T) (i : Z) (yi : T) :
  _degree s = 0 -> sample (_y s) i = Some yi -> calc s x i = Ok yi [].
Proof. intros Hd Ey. unfold calc. rewrite Hd. cbn. now apply rd_sample. Qed.

Lemma calc_linear_degenerate (s : Spline T) (x : T) (i : Z) (xi xi1 yi : T) :
  _degree s = 1 ->
  sample (_x s) i = Some xi -> sample (_x s) (i + 1) = Some xi1 ->
  sample (_y s) i = Some yi ->
  eq xi xi1 = true -> calc s x i = Ok yi [].
Proof.
  intros Hd Exi Exi1 Eyi Heq. unfold calc. rewrite Hd. cbn [Z.eqb Pos.eqb].
  rewrite (rd_sample _ _ _ Exi), bind_Ok_nil, (rd_sample _ _ _ Exi1), bind_Ok_nil, Heq.
  now apply rd_sample.
Qed.

Lemma calc_linear (s : Spline T) (x : T) (i : Z) (xi xi1 yi yi1 : T) :
  _degree s = 1 ->
  sample (_x s) i = Some xi -> sample (_x s) (i + 1) = Some xi1 ->
  sample (_y s) i = Some yi -> sample (_y s) (i + 1) = Some yi1 ->
  eq xi xi1 = false ->
  calc s x i = Ok (spec_linear xi xi1 yi yi1 x) [(xi1 - xi)%sc].
Proof.
  intros Hd Exi Exi1 Eyi Eyi1 Hne. unfold calc. rewrite Hd. cbn [Z.eqb Pos.eqb].
  rewrite (rd_sample _ _ _ Exi), bind_Ok_nil, (rd_sample _ _ _ Exi1), bind_Ok_nil, Hne.
  rewrite (rd_sample _ _ _ Eyi), bind_Ok_nil, (rd_sample _ _ _ Eyi1), bind_Ok_nil.
  reflexivity.
Qed.

Lemma calc_hermite (s : Spline T) (x : T) (i : Z) (xi xi1 yi yi1 mi mi1 : T) :
  _degree s = Hermite ->
  sample (_x s) i = Some xi -> sample (_x s) (i + 1) = Some xi1 ->
  sample (_y s) i = Some yi -> sample (_y s) (i + 1) = Some yi1 ->
  sample (_m s) i = Some mi -> sample (_m s) (i + 1) = Some mi1 ->
  calc s x i = Ok (spec_hermite xi xi1 yi yi1 mi mi1 x) [(xi1 - xi)%sc].
Proof.
  intros Hd Exi Exi1 Eyi Eyi1 Emi Emi1. unfold calc. rewrite Hd. cbn [Z.eqb Pos.eqb Hermite].
  rewrite (rd_sample _ _ _ Exi), bind_Ok_nil, (rd_sample _ _ _ Exi1), bind_Ok_nil.
  unfold divide. cbn [bind].
  rewrite (rd_sample _ _ _ Eyi), (rd_sample _ _ _ Eyi1),
    (rd_sample _ _ _ Emi), (rd_sample _ _ _ Emi1).
  reflexivity.
Qed.

Lemma calc_catmull_first (s : Spline T) (x : T) (y1 : T) :
  _degree s = Catmull -> sample (_y s) 1 = Some y1 -> calc s x 0 = Ok y1 [].
Proof. intros Hd Ey. unfold calc. rewrite Hd. cbn. now apply rd_sample. Qed.

Lemma calc_catmull_last (s : Spline T) (x : T) (yp : T) :
  _degree s = Catmull -> _length s - 2 <> 0 ->
  sample (_y s) (_length s - 2) = Some yp ->
  calc s x (_length s - 2) = Ok yp [].
Proof.
  intros Hd Hne Ey. unfold calc. rewrite Hd. cbn [Z.eqb Pos.eqb Catmull].
  destruct (Z.eqb_spec (_length s - 2) 0) as [E | _]; [contradiction |].
  rewrite Z.eqb_refl. now apply rd_sample.
Qed.

(** [catmull_tangent] at an interior index. *)
Lemma catmull_tangent_eval (s : Spline T) (i : Z) (xp xn yp yn : T) :
  sample (_x s) (i - 1) = Some xp -> sample (_x s) (i + 1) = Some xn ->
  sample (_y s) (i - 1) = Some yp -> sample (_y s) (i + 1) = Some yn ->
  catmull_tangent s i =
  if eq xn xp then Ok 0%sc [] else Ok (spec_tangent xp xn yp yn) [(xn - xp)%sc].
Proof.
  intros Exp Exn Eyp Eyn. unfold catmull_tangent.
  rewrite (rd_sample _ _ _ Exn), bind_Ok_nil, (rd_sample _ _ _ Exp), bind_Ok_nil.
  destruct (eq xn xp); [reflexivity |].
  rewrite (rd_sample _ _ _ Eyn), bind_Ok_nil, (rd_sample _ _ _ Eyp), bind_Ok_nil.
  reflexivity.
Qed.

Lemma catmull_tangent_defined (s : Spline T) (i : Z) :
  configured s = true -> 0 < i < _length s - 1 ->
  exists m l, catmull_tangent s i = Ok m l.
Proof.
  intros Hc Hi.
  destruct (x_some s (i - 1) Hc) as [xp Exp]; [lia |].
  destruct (x_some s (i + 1) Hc) as [xn Exn]; [lia |].
  destruct (y_some s (i - 1) Hc) as [yp Eyp]; [lia |].
  destruct (y_some s (i + 1) Hc) as [yn Eyn]; [lia |].
  rewrite (catmull_tangent_eval s i xp xn yp yn) by assumption.
  destruct (eq xn xp); eauto.
Qed.

(** [calc] on an interior segment of the Catmull-Rom degree: the Hermite
    blend with the two derived tangents; three divisions. *)
Lemma calc_catmull_interior (s : Spline T) (x : T) (i : Z)
      (xi xi1 yi yi1 m0 m1 : T) (l0 l1 : list T) :
  _degree s = Catmull -> i <> 0 -> i <> _length s - 2 -> i <> _length s - 1 ->
  sample (_x s) i = Some xi -> sample (_x s) (i + 1) = Some xi1 ->
  sample (_y s) i = Some yi -> sample (_y s) (i + 1) = Some yi1 ->
  catmull_tangent s i = Ok m0 l0 -> catmull_tangent s (i + 1) = Ok m1 l1 ->
  calc s x i
  = Ok (hermite ((x - xi) / (xi1 - xi))%sc yi yi1 m0 m1 xi xi1)
       ((xi1 - xi)%sc :: l0 ++ l1).
Proof.
  intros Hd Hne0 Hne2 Hne1 Exi Exi1 Eyi Eyi1 E0 E1.
  unfold calc. rewrite Hd. cbn [Z.eqb Pos.eqb Catmull].
  destruct (Z.eqb_spec i 0); [contradiction |].
  destruct (Z.eqb_spec i (_length s - 2)); [contradiction |].
  destruct (Z.eqb_spec i (_length s - 1)); [contradiction |].
  rewrite (rd_sample _ _ _ Exi), bind_Ok_nil, (rd_sample _ _ _ Exi1), bind_Ok_nil.
  unfold divide. cbn [bind]. rewrite E0, E1.
  rewrite (rd_sample _ _ _ Eyi), (rd_sample _ _ _ Eyi1). cbn.
  now rewrite !app_nil_r.
Qed.

(** The segment that contains a query starts at an index with a successor. *)
Lemma inside_range (s : Spline T) (x : T) (i : Z) :
  configured s = true -> inside s x i = true -> 0 <= i /\ i + 1 < _length s.
Proof.
  intros Hc Hi. unfold inside in Hi.
  destruct (sample (_x s) i) as [xi |] eqn:Exi; [| discriminate].
  destruct (sample (_x s) (i + 1)) as [xi1 |] eqn:Exi1; [| discriminate].
  pose proof (x_range s _ _ Hc Exi). pose proof (x_range s _ _ Hc Exi1). lia.
Qed.

Lemma inside_not_exact (s : Spline T) (x : T) (i : Z) :
  inside s x i = true -> exact s x i = false.
Proof.
  unfold inside, exact. destruct (sample (_x s) i) as [xi |]; [| reflexivity].
  destruct (sample (_x s) (i + 1)); [| discriminate].
  intros Hin. apply andb_true_iff in Hin as [Hlo _]. now apply lt_not_eq.
Qed.

(** The endpoints of a segment that contains a query differ. *)
Lemma inside_ends_differ (x xi xi1 : T) :
  lt xi x = true -> lt x xi1 = true -> eq xi xi1 = false.
Proof.
  intros Hlo Hhi. apply lt_not_eq.
  apply (lt_le_trans xi x xi1); [assumption | now apply lt_le].
Qed.

(** On a supported degree [calc] returns for the segment that contains the
    query. *)
Lemma calc_defined (s : Spline T) (x : T) (i : Z) :
  configured s = true -> supported s = true -> inside s x i = true ->
  exists v l, calc s x i = Ok v l.
Proof.
  intros Hc Hsup Hin.
  destruct (inside_range s x i Hc Hin) as [Hi0 Hi1].
  destruct (x_some s i Hc) as [xi Exi]; [lia |].
  destruct (x_some s (i + 1) Hc) as [xi1 Exi1]; [lia |].
  destruct (y_some s i Hc) as [yi Eyi]; [lia |].
  destruct (y_some s (i + 1) Hc) as [yi1 Eyi1]; [lia |].
  unfold supported in Hsup. rewrite !orb_true_iff, andb_true_iff in Hsup.
  destruct Hsup as [[[Hd | Hd] | Hd] | [Hd Hm]]; apply Z.eqb_eq in Hd.
  - rewrite (calc_constant s x i yi) by assumption. eauto.
  - destruct (eq xi xi1) eqn:E.
    + rewrite (calc_linear_degenerate s x i xi xi1 yi) by assumption. eauto.
    + rewrite (calc_linear s x i xi xi1 yi yi1) by assumption. eauto.
  - destruct (Z.eq_dec i 0) as [-> | Hne0].
    { rewrite (calc_catmull_first s x yi1) by assumption. eauto. }
    destruct (Z.eq_dec i (_length s - 2)) as [-> | Hne2].
    { rewrite (calc_catmull_last s x yi) by (assumption || lia). eauto. }
    destruct (catmull_tangent_defined s i Hc) as (m0 & l0 & E0); [lia |].
    destruct (catmull_tangent_defined s (i + 1) Hc) as (m1 & l1 & E1); [lia |].
    rewrite (calc_catmull_interior s x i xi xi1 yi yi1 m0 m1 l0 l1)
      by (assumption || lia).
    eauto.
  - unfold with_tangents in Hm. apply Z.eqb_eq in Hm.
    destruct (sample_some (_m s) i) as [mi Emi]; [lia |].
    destruct (sample_some (_m s) (i + 1)) as [mi1 Emi1]; [lia |].
    rewrite (calc_hermite s x i xi xi1 yi yi1 mi mi1) by assumption. eauto.
Qed.

(** [value] on a query strictly inside segment [i] of a sorted table. *)
Lemma value_inside (s : Spline T) (x : T) (i : Z) :
  configured s = true -> 0 <= _prev_point s -> inside s x i = true ->
  value s x = (v <- calc s x i ;; ret (v, set_prev_point i s)).
Proof.
  intros Hc Hp Hin.
  rewrite (value_unique_hit s x i Hc Hp).
  - apply result_at_inside. now apply inside_not_exact.
  - unfold hit. rewrite Hin. apply orb_true_r.
  - intros j'. now apply inside_unique.
Qed.

Lemma inside_intro (s : Spline T) (x : T) (i : Z) (xi xi1 : T) :
  sample (_x s) i = Some xi -> sample (_x s) (i + 1) = Some xi1 ->
  lt xi x = true -> lt x xi1 = true -> inside s x i = true.
Proof. intros Exi Exi1 Hlo Hhi. unfold inside. now rewrite Exi, Exi1, Hlo, Hhi. Qed.

End Segments.

(** ** The claims about the search *)

Section Search.

Context {T : Type} `{SO : ScalarOrder T}.


(** C9, amended.  The fall-through of the search is unreachable.  On a
    configured table (N >= 1, x sorted), with the cursor in 0..N-1 and a
    query within [x[0], x[N-1]], one of the N indices of the scan is an
    exact match or starts a containing segment, and [value] does not leave
    its loop without [return].  It returns a scalar when moreover the degree
    is one of 0, 1, 10, 11 and, for degree 10, the tangent array holds N
    cells. *)
Theorem scan_finds (s : Spline T) (x x0 xl : T) :
  configured s = true ->
  0 <= _prev_point s < _length s ->
  sample (_x s) 0 = Some x0 ->
  sample (_x s) (_length s - 1) = Some xl ->
  le x0 x = true -> le x xl = true ->
  (exists k, 0 <= k < _length s /\ hit s x (scan_index s k) = true)
  /\ value s x <> Fault NoReturnValue
  /\ (supported s = true -> exists v s' l, value s x = Ok (v, s') l).
Proof.
  intros Hc Hp E0 El H0 Hl.
  destruct (value_scan s x x0 xl Hc (proj1 Hp) E0 El H0 Hl)
    as (k & Hk & Hhit & _ & Hv).
  split; [now exists k |]. split.
  - rewrite Hv. apply result_at_returns.
  - intros Hsup. rewrite Hv. set (j := scan_index s k) in *.
    destruct (exact s x j) eqn:He.
    + assert (Hj : 0 <= j < _length s).
      { pose proof (configured_inv s Hc) as (HN & _).
        apply scan_index_range; lia. }
      destruct (y_some s j Hc Hj) as [yj Eyj].
      rewrite (result_at_exact s x j yj He Eyj). eauto.
    + rewrite (result_at_inside s x j He).
      unfold hit in Hhit. rewrite He in Hhit. cbn [orb] in Hhit.
      destruct (calc_defined s x j Hc Hsup Hhit) as (v & l & Ev).
      rewrite Ev. cbn. eauto.
Qed.

(** C10. Frame of [value].  A call that returns leaves the three arrays, the
    sample count and the degree as they were; the object after the call is
    the object before it, or differs from it by the cursor only, which is
    then an index that is an exact match or starts a containing segment.
    The two flat-extrapolation branches leave the object unchanged. *)
Theorem value_frame (s : Spline T) (x v : T) (s' : Spline T) (l : list T) :
  value s x = Ok (v, s') l ->
  _x s' = _x s /\ _y s' = _y s /\ _m s' = _m s
  /\ _length s' = _length s /\ _degree s' = _degree s
  /\ (s' = s \/ exists j, hit s x j = true /\ s' = set_prev_point j s)
  /\ (forall x0, sample (_x s) 0 = Some x0 -> gt x0 x = true -> s' = s)
  /\ (forall x0 xl,
         sample (_x s) 0 = Some x0 -> sample (_x s) (_length s - 1) = Some xl ->
         gt x0 x = false -> lt xl x = true -> s' = s).
Proof.
  intros E. pose proof (value_Ok_cases s x v s' l E) as Hcur.
  assert (Hfields : _x s' = _x s /\ _y s' = _y s /\ _m s' = _m s
                    /\ _length s' = _length s /\ _degree s' = _degree s).
  { destruct Hcur as [[-> _] | [_ (j & _ & ->)]]; repeat split. }
  destruct Hfields as (Fx & Fy & Fm & Fl & Fd).
  repeat (split; [assumption |]).
  split; [destruct Hcur as [[-> _] | [_ Hj]]; [now left | now right] |].
  split.
  - intros x0 E0 Hgt.
    destruct Hcur as [[-> _] | [(x0' & xl & E0' & _ & Hgt' & _) _]]; [reflexivity |].
    congruence.
  - intros x0 xl E0 El Hgt Hlt.
    destruct Hcur as [[-> _] | [(x0' & xl' & _ & El' & _ & Hlt') _]]; [reflexivity |].
    congruence.
Qed.

End Search.

(** ** The claims about the value returned *)

Section Values.

Context {T : Type} `{SO : ScalarOrder T}.

(** A query that equals a sample's abscissa: the scan stops at the first
    index, in its order, whose abscissa equals the query, and [value] returns
    the ordinate there with no division. *)
Lemma value_exact (s : Spline T) (x : T) (i : Z) :
  configured s = true -> 0 <= _prev_point s -> exact s x i = true ->
  exists k j yj,
    0 <= k < _length s
    /\ j = scan_index s k
    /\ exact s x j = true
    /\ (forall k', 0 <= k' < k -> exact s x (scan_index s k') = false)
    /\ sample (_y s) j = Some yj
    /\ value s x = Ok (yj, set_prev_point j s) [].
Proof.
  intros Hc Hp He.
  pose proof (configured_inv s Hc) as (HN & _).
  assert (Hhit : hit s x i = true) by (unfold hit; now rewrite He).
  destruct (hit_in_range s x i Hc Hhit) as (x0 & xl & E0 & El & H0 & Hl).
  destruct (value_scan s x x0 xl Hc Hp E0 El H0 Hl) as (k & Hk & Hk_hit & Hmin & Hv).
  assert (Hex : forall j, hit s x j = exact s x j).
  { intros j. unfold hit. rewrite (exact_no_inside s x i j Hc He). apply orb_false_r. }
  set (j := scan_index s k) in *.
  assert (Hj : 0 <= j < _length s) by (apply scan_index_range; lia).
  destruct (y_some s j Hc Hj) as [yj Eyj].
  exists k, j, yj. rewrite Hex in Hk_hit.
  repeat split; try lia; try assumption.
  - intros k' Hk'. rewrite <- Hex. now apply Hmin.
  - rewrite Hv. now apply result_at_exact.
Qed.

Lemma exact_self (s : Spline T) (i : Z) (xi : T) :
  configured s = true -> sample (_x s) i = Some xi -> exact s xi i = true.
Proof.
  intros Hc Exi. unfold exact. rewrite Exi.
  apply (le_ordered xi xi). apply (table_le s i i); (assumption || lia).
Qed.

(** C1, amended.  Flat extrapolation holds strictly outside the range: on a
    configured table a query below [x[0]] returns [y[0]] and a query above
    [x[N-1]] returns [y[N-1]], whatever the degree and the cursor, and the
    cursor stays.  With [x <= x[0]] (resp. [x >= x[N-1]]) the value is still
    [y[0]] (resp. [y[N-1]]) when that end abscissa is not repeated by the
    neighbouring sample; on equality it comes from the exact-match branch,
    which moves the cursor to that end. *)
Theorem flat_extrapolation (s : Spline T) (x x0 xl y0 yl : T) :
  configured s = true ->
  sample (_x s) 0 = Some x0 -> sample (_y s) 0 = Some y0 ->
  sample (_x s) (_length s - 1) = Some xl ->
  sample (_y s) (_length s - 1) = Some yl ->
  (lt x x0 = true -> value s x = Ok (y0, s) [])
  /\ (lt xl x = true -> value s x = Ok (yl, s) [])
  /\ (0 <= _prev_point s -> le x x0 = true ->
      (forall x1, sample (_x s) 1 = Some x1 -> lt x0 x1 = true) ->
      value s x = Ok (y0, if lt x x0 then s else set_prev_point 0 s) [])
  /\ (0 <= _prev_point s -> le xl x = true ->
      (forall xp, sample (_x s) (_length s - 2) = Some xp -> lt xp xl = true) ->
      value s x
      = Ok (yl, if lt xl x then s else set_prev_point (_length s - 1) s) []).
Proof.
  intros Hc E0 Ey0 El Eyl.
  pose proof (configured_inv s Hc) as (HN & _).
  assert (Hbelow : lt x x0 = true -> value s x = Ok (y0, s) []).
  { intros Hlt. unfold value, gt.
    now rewrite (rd_sample _ _ _ E0), bind_Ok_nil, Hlt,
      (rd_sample _ _ _ Ey0), bind_Ok_nil. }
  assert (Habove : lt xl x = true -> value s x = Ok (yl, s) []).
  { intros Hlt. unfold value, gt.
    assert (Hge : lt x x0 = false).
    { apply le_not_gt, lt_le. apply (le_lt_trans x0 xl x); [| assumption].
      apply (table_le s 0 (_length s - 1)); (assumption || lia). }
    rewrite (rd_sample _ _ _ E0), bind_Ok_nil, Hge.
    now rewrite (rd_sample _ _ _ El), bind_Ok_nil, Hlt,
      (rd_sample _ _ _ Eyl), bind_Ok_nil. }
  split; [exact Hbelow |]. split; [exact Habove |]. split.
  - intros Hp Hle Hfirst.
    destruct (lt x x0) eqn:Hlt; [now apply Hbelow |].
    destruct (le_cases _ _ Hle) as [Hlt' | Heq]; [congruence |].
    assert (He : exact s x 0 = true).
    { unfold exact. now rewrite E0, eq_sym. }
    destruct (value_exact s x 0 Hc Hp He) as (k & j & yj & _ & _ & Hej & _ & Eyj & Hv).
    assert (j = 0); [| subst j; congruence].
    unfold exact in Hej.
    destruct (sample (_x s) j) as [xj |] eqn:Exj; [| discriminate].
    pose proof (x_range s j xj Hc Exj) as Rj.
    destruct (Z.eq_dec j 0) as [| Hne]; [assumption | exfalso].
    destruct (x_some s 1 Hc) as [x1 E1]; [lia |].
    assert (Hlt1 : lt x0 xj = true).
    { apply (lt_le_trans x0 x1 xj); [now apply Hfirst |].
      apply (table_le s 1 j); (assumption || lia). }
    assert (Hle1 : le xj x0 = true).
    { apply (eq_le_trans xj x x0); [assumption | now apply eq_le]. }
    apply le_not_gt in Hle1. congruence.
  - intros Hp Hle Hlast.
    destruct (lt xl x) eqn:Hlt; [now apply Habove |].
    destruct (le_cases _ _ Hle) as [Hlt' | Heq]; [congruence |].
    assert (He : exact s x (_length s - 1) = true).
    { unfold exact. now rewrite El. }
    destruct (value_exact s x (_length s - 1) Hc Hp He)
      as (k & j & yj & _ & _ & Hej & _ & Eyj & Hv).
    assert (j = _length s - 1); [| subst j; congruence].
    unfold exact in Hej.
    destruct (sample (_x s) j) as [xj |] eqn:Exj; [| discriminate].
    pose proof (x_range s j xj Hc Exj) as Rj.
    destruct (Z.eq_dec j (_length s - 1)) as [| Hne]; [assumption | exfalso].
    destruct (x_some s (_length s - 2) Hc) as [xp Ep]; [lia |].
    assert (Hlt1 : lt xj xl = true).
    { apply (le_lt_trans xj xp xl); [| now apply Hlast].
      apply (table_le s j (_length s - 2)); (assumption || lia). }
    assert (Hle1 : le xl xj = true).
    { apply (eq_le_trans xl x xj); [assumption | now apply eq_ge]. }
    apply le_not_gt in Hle1. congruence.
Qed.

(** C2, amended.  On a configured table, whatever the degree and for every
    cursor that is not negative, [value(x[i])] takes the exact-match branch:
    it performs no division and returns [y[j]] for the first index [j] of the
    scan with [x[j] == x[i]], which becomes the cursor.  It is [y[i]]
    whenever no other sample has that abscissa. *)
Theorem sample_point (s : Spline T) (i : Z) (xi yi : T) :
  configured s = true -> 0 <= _prev_point s ->
  sample (_x s) i = Some xi -> sample (_y s) i = Some yi ->
  (exists k j yj,
      0 <= k < _length s
      /\ j = scan_index s k
      /\ exact s xi j = true
      /\ (forall k', 0 <= k' < k -> exact s xi (scan_index s k') = false)
      /\ sample (_y s) j = Some yj
      /\ value s xi = Ok (yj, set_prev_point j s) [])
  /\ ((forall j, exact s xi j = true -> j = i) ->
      value s xi = Ok (yi, set_prev_point i s) []).
Proof.
  intros Hc Hp Exi Eyi.
  pose proof (exact_self s i xi Hc Exi) as He.
  pose proof (value_exact s xi i Hc Hp He) as Hv.
  split; [exact Hv |].
  intros Huniq. destruct Hv as (k & j & yj & _ & _ & Hej & _ & Eyj & Hv).
  apply Huniq in Hej. subst j. congruence.
Qed.

(** C8, amended.  On a configured table where two adjacent samples share an
    abscissa, both are exact matches for it, and [value] at that abscissa
    returns, with no division, the ordinate of the first of the samples
    holding it that the scan meets from the cursor.  From cursor 0 this is
    the sample of lowest index with that abscissa, at or before the pair. *)
Theorem duplicate_abscissa (s : Spline T) (i : Z) (xi xi1 : T) :
  configured s = true -> 0 <= _prev_point s ->
  sample (_x s) i = Some xi -> sample (_x s) (i + 1) = Some xi1 ->
  eq xi xi1 = true ->
  exact s xi i = true /\ exact s xi (i + 1) = true
  /\ exists k j yj,
      0 <= k < _length s
      /\ j = scan_index s k
      /\ exact s xi j = true
      /\ (forall k', 0 <= k' < k -> exact s xi (scan_index s k') = false)
      /\ sample (_y s) j = Some yj
      /\ value s xi = Ok (yj, set_prev_point j s) []
      /\ (_prev_point s = 0 ->
          j <= i /\ forall j', 0 <= j' < j -> exact s xi j' = false).
Proof.
  intros Hc Hp Exi Exi1 Heq.
  pose proof (configured_inv s Hc) as (HN & _).
  pose proof (exact_self s i xi Hc Exi) as He.
  split; [exact He |].
  split; [unfold exact; now rewrite Exi1, eq_sym |].
  destruct (value_exact s xi i Hc Hp He) as (k & j & yj & Hk & Ej & Hej & Hmin & Eyj & Hv).
  exists k, j, yj. repeat (split; [assumption |]).
  intros Hzero.
  assert (Hid : forall k', 0 <= k' < _length s -> scan_index s k' = k').
  { intros k' Hk'. unfold scan_index. rewrite Hzero, Z.add_0_r.
    apply Z.rem_small. lia. }
  rewrite Hid in Ej by lia. subst j.
  pose proof (x_range s i xi Hc Exi) as Ri.
  split.
  - destruct (Z_le_gt_dec k i) as [| Hgt]; [assumption | exfalso].
    specialize (Hmin i). rewrite Hid in Hmin by lia.
    rewrite Hmin in He by lia. discriminate.
  - intros j' Hj'. specialize (Hmin j'). rewrite Hid in Hmin by lia.
    apply Hmin. lia.
Qed.

(** C3. Linear degree.  On a configured table with degree 1, a query with
    [x[i] < x < x[i+1]] returns
    [y[i] + (y[i+1] - y[i]) * (x - x[i]) / (x[i+1] - x[i])], the cursor moves
    to [i] and the one division is by [x[i+1] - x[i]]; and when
    [x[i] == x[i+1]], [calc(x, i)] returns [y[i]] and divides nothing. *)
Theorem linear_segment (s : Spline T) (x : T) (i : Z) (xi xi1 yi yi1 : T) :
  configured s = true -> _degree s = 1 -> 0 <= _prev_point s ->
  sample (_x s) i = Some xi -> sample (_x s) (i + 1) = Some xi1 ->
  sample (_y s) i = Some yi -> sample (_y s) (i + 1) = Some yi1 ->
  (lt xi x = true -> lt x xi1 = true ->
   value s x = Ok (spec_linear xi xi1 yi yi1 x, set_prev_point i s) [(xi1 - xi)%sc])
  /\ (eq xi xi1 = true -> calc s x i = Ok yi []).
Proof.
  intros Hc Hd Hp Exi Exi1 Eyi Eyi1. split.
  - intros Hlo Hhi.
    rewrite (value_inside s x i Hc Hp (inside_intro s x i xi xi1 Exi Exi1 Hlo Hhi)).
    rewrite (calc_linear s x i xi xi1 yi yi1 Hd Exi Exi1 Eyi Eyi1
               (inside_ends_differ x xi xi1 Hlo Hhi)).
    reflexivity.
  - intros Heq. now apply (calc_linear_degenerate s x i xi xi1 yi).
Qed.

(** C6. Hermite degree.  On a configured table with tangents and degree
    Hermite, a query with [x[i] < x < x[i+1]] returns, for
    [t = (x - x[i]) / (x[i+1] - x[i])],
    [h00(t)*y[i] + h10(t)*(x[i+1]-x[i])*m[i] + h01(t)*y[i+1]
     + h11(t)*(x[i+1]-x[i])*m[i+1]] with the four cubic basis polynomials of
    the specification; the cursor moves to [i]. *)
Theorem hermite_segment (s : Spline T) (x : T) (i : Z) (xi xi1 yi yi1 mi mi1 : T) :
  configured s = true -> _degree s = Hermite -> 0 <= _prev_point s ->
  sample (_x s) i = Some xi -> sample (_x s) (i + 1) = Some xi1 ->
  sample (_y s) i = Some yi -> sample (_y s) (i + 1) = Some yi1 ->
  sample (_m s) i = Some mi -> sample (_m s) (i + 1) = Some mi1 ->
  lt xi x = true -> lt x xi1 = true ->
  value s x
  = Ok (spec_hermite xi xi1 yi yi1 mi mi1 x, set_prev_point i s) [(xi1 - xi)%sc].
Proof.
  intros Hc Hd Hp Exi Exi1 Eyi Eyi1 Emi Emi1 Hlo Hhi.
  rewrite (value_inside s x i Hc Hp (inside_intro s x i xi xi1 Exi Exi1 Hlo Hhi)).
  rewrite (calc_hermite s x i xi xi1 yi yi1 mi mi1 Hd Exi Exi1 Eyi Eyi1 Emi Emi1).
  reflexivity.
Qed.

End Values.

(** ** The claims about the Catmull-Rom degree *)

Section CatmullRom.

Context {T : Type} `{SO : ScalarOrder T}.

(** C7. Catmull-Rom tangent.  On a configured table and at an interior index
    [0 < i < N-1], [catmull_tangent(i)] returns 0 and divides nothing when
    [x[i+1] == x[i-1]]; otherwise it returns
    [(y[i+1] - y[i-1]) / (x[i+1] - x[i-1])], its one division; the divisor
    is not zero on a scalar type where a difference is zero only between
    equal values. *)
Theorem catmull_tangent_guarded (s : Spline T) (i : Z) :
  configured s = true -> 0 < i < _length s - 1 ->
  exists xp xn yp yn,
    sample (_x s) (i - 1) = Some xp /\ sample (_x s) (i + 1) = Some xn
    /\ sample (_y s) (i - 1) = Some yp /\ sample (_y s) (i + 1) = Some yn
    /\ (eq xn xp = true -> catmull_tangent s i = Ok 0%sc [])
    /\ (eq xn xp = false ->
        catmull_tangent s i = Ok (spec_tangent xp xn yp yn) [(xn - xp)%sc]
        /\ (ScalarSub T -> eq (xn - xp)%sc 0%sc = false)).
Proof.
  intros Hc Hi.
  destruct (x_some s (i - 1) Hc) as [xp Exp]; [lia |].
  destruct (x_some s (i + 1) Hc) as [xn Exn]; [lia |].
  destruct (y_some s (i - 1) Hc) as [yp Eyp]; [lia |].
  destruct (y_some s (i + 1) Hc) as [yn Eyn]; [lia |].
  exists xp, xn, yp, yn. repeat (split; [assumption |]).
  pose proof (catmull_tangent_eval s i xp xn yp yn Exp Exn Eyp Eyn) as Ev.
  split; intros Heq; rewrite Heq in Ev; [assumption |].
  split; [assumption |]. intros SS.
  destruct (eq (xn - xp)%sc 0%sc) eqn:Ez; [| reflexivity].
  apply sub_zero in Ez. congruence.
Qed.

(** C5, amended.  Catmull-Rom degree on a configured table with N >= 2:
    [calc(x, 0)] returns [y[1]] for every [x], and [calc(x, N-2)] returns
    [y[N-2]] for every [x] when N >= 3; neither divides.  With N = 2 the one
    segment is index 0 and the first rule applies.  So a query located in
    segment 0 gets [y[1]] from [value], and one located in segment N-2 of a
    table of three samples or more gets [y[N-2]]. *)
Theorem catmull_boundary (s : Spline T) (x y1 yp : T) :
  configured s = true -> _degree s = Catmull -> 2 <= _length s ->
  sample (_y s) 1 = Some y1 -> sample (_y s) (_length s - 2) = Some yp ->
  calc s x 0 = Ok y1 []
  /\ (3 <= _length s -> calc s x (_length s - 2) = Ok yp [])
  /\ (0 <= _prev_point s -> inside s x 0 = true ->
      value s x = Ok (y1, set_prev_point 0 s) [])
  /\ (0 <= _prev_point s -> 3 <= _length s -> inside s x (_length s - 2) = true ->
      value s x = Ok (yp, set_prev_point (_length s - 2) s) []).
Proof.
  intros Hc Hd HN Ey1 Eyp.
  pose proof (calc_catmull_first s x y1 Hd Ey1) as Hfirst.
  assert (Hlast : 3 <= _length s -> calc s x (_length s - 2) = Ok yp []).
  { intros H3. apply calc_catmull_last; (assumption || lia). }
  split; [assumption |]. split; [assumption |]. split.
  - intros Hp Hin. now rewrite (value_inside s x 0 Hc Hp Hin), Hfirst.
  - intros Hp H3 Hin. now rewrite (value_inside s x _ Hc Hp Hin), (Hlast H3).
Qed.

End CatmullRom.

(** ** The rational scalars satisfy the laws *)

Lemma Qlt_bool_iff (a b : Q) : Qlt_bool a b = true <-> (a < b)%Q.
Proof.
  unfold Qlt_bool. rewrite negb_true_iff. split.
  - intros E. apply Qnot_le_lt. intros Hle. apply Qle_bool_iff in Hle. congruence.
  - intros Hlt. destruct (Qle_bool b a) eqn:E; [| reflexivity].
    apply Qle_bool_iff in E. exfalso. now apply (Qlt_not_le a b).
Qed.

Lemma Qlt_bool_false (a b : Q) : Qlt_bool a b = false <-> (b <= a)%Q.
Proof.
  unfold Qlt_bool. rewrite negb_false_iff. apply Qle_bool_iff.
Qed.

Lemma Q_le_iff (a b : Q) : le a b = true <-> (a <= b)%Q.
Proof.
  unfold le. cbn [lt eq Q_scalar]. rewrite orb_true_iff, Qlt_bool_iff, Qeq_bool_iff.
  rewrite Qle_lteq. tauto.
Qed.

#[export] Instance Q_order : ScalarOrder Q.
Proof.
  split.
  - intros a b. apply eq_true_iff_eq. cbn [eq Q_scalar].
    rewrite !Qeq_bool_iff. split; intros E; now symmetry.
  - intros a b Hle. apply Q_le_iff in Hle. now apply Qlt_bool_false.
  - intros a b _. cbn [eq Q_scalar]. rewrite !Qeq_bool_iff. split; reflexivity.
  - intros a b _ _. destruct (Qlt_le_dec b a) as [Hlt | Hle].
    + right. now apply Qlt_bool_iff.
    + left. now apply Q_le_iff.
  - intros a b c Hab Hbc. apply Q_le_iff in Hab. apply Qlt_bool_iff in Hbc.
    apply Qlt_bool_iff. now apply (Qle_lt_trans a b c).
  - intros a b c Hab Hbc. apply Qlt_bool_iff in Hab. apply Q_le_iff in Hbc.
    apply Qlt_bool_iff. now apply (Qlt_le_trans a b c).
  - intros a b c Hab Hbc. apply Qeq_bool_iff in Hab. apply Q_le_iff in Hbc.
    apply Q_le_iff. now rewrite Hab.
  - intros a b c Hab Hbc. apply Q_le_iff in Hab. apply Qeq_bool_iff in Hbc.
    apply Q_le_iff. now rewrite <- Hbc.
Qed.

#[export] Instance Q_sub : ScalarSub Q.
Proof.
  split. intros a b. cbn [eq sub of_int Q_scalar]. rewrite !Qeq_bool_iff.
  intros E. rewrite <- (Qplus_0_l b), <- E. ring.
Qed.

(** ** The binary64 scalars satisfy the order laws *)

Lemma SFcompare_sym (a b : spec_float) :
  SFcompare b a = option_map CompOpp (SFcompare a b).
Proof.
  destruct a as [sa | sa | | sa ma ea], b as [sb | sb | | sb mb eb];
    try destruct sa; try destruct sb; cbn; try reflexivity;
    compare_cases; cbn; try reflexivity; lia.
Qed.

Lemma SFcompare_trans (a b c : spec_float) (c1 c2 : comparison) :
  SFcompare a b = Some c1 -> SFcompare b c = Some c2 ->
  c1 <> Gt -> c2 <> Gt ->
  SFcompare a c = Some (match c1 with Eq => c2 | _ => Lt end).
Proof.
  destruct a as [sa | sa | | sa ma ea], b as [sb | sb | | sb mb eb],
    c as [sc | sc | | sc mc ec];
    try destruct sa; try destruct sb; try destruct sc; cbn;
    try discriminate; compare_cases; cbn;
    intros [= <-] [= <-] ? ?; try congruence; try reflexivity; lia.
Qed.

(** An operand of a comparison that has an outcome is ordered. *)
Lemma SFcompare_ordered (a b : spec_float) (c : comparison) :
  SFcompare a b = Some c ->
  SFcompare a a = Some Eq /\ SFcompare b b = Some Eq.
Proof.
  destruct a as [sa | sa | | sa ma ea], b as [sb | sb | | sb mb eb];
    try destruct sa; try destruct sb; cbn; try discriminate; intros _;
    rewrite ?Z.compare_refl, ?Pos.compare_cont_refl; cbn; split; reflexivity.
Qed.

Lemma SFcompare_total (a b : spec_float) :
  SFcompare a a = Some Eq -> SFcompare b b = Some Eq ->
  exists c, SFcompare a b = Some c.
Proof.
  destruct a as [sa | sa | | sa ma ea], b as [sb | sb | | sb mb eb];
    cbn; try discriminate; intros _ _; eauto.
Qed.

Section Double.

Variable pw : float -> float -> float.

Lemma double_lt_iff (a b : float) :
  @lt float (double_scalar pw) a b = true <-> double_compare a b = Some Lt.
Proof.
  cbn [lt double_scalar]. rewrite ltb_spec. unfold SFltb, double_compare.
  destruct (SFcompare (Prim2SF a) (Prim2SF b)) as [[| |] |]; split; congruence.
Qed.

Lemma double_eq_iff (a b : float) :
  @eq float (double_scalar pw) a b = true <-> double_compare a b = Some Eq.
Proof.
  cbn [eq double_scalar]. rewrite eqb_spec. unfold SFeqb, double_compare.
  destruct (SFcompare (Prim2SF a) (Prim2SF b)) as [[| |] |]; split; congruence.
Qed.

Lemma double_le_iff (a b : float) :
  @le float (double_scalar pw) a b = true
  <-> exists c, double_compare a b = Some c /\ c <> Gt.
Proof.
  unfold le. rewrite orb_true_iff, double_lt_iff, double_eq_iff. split.
  - intros [E | E]; rewrite E; eexists; split; (reflexivity || discriminate).
  - intros ([| |] & E & Hc); [now right | now left | congruence].
Qed.

Lemma double_order : @ScalarOrder float (double_scalar pw).
Proof.
  split.
  - intros a b. apply eq_true_iff_eq. rewrite !double_eq_iff.
    unfold double_compare. rewrite (SFcompare_sym (Prim2SF a) (Prim2SF b)).
    destruct (SFcompare (Prim2SF a) (Prim2SF b)) as [[| |] |]; cbn; split; congruence.
  - intros a b Hle. apply double_le_iff in Hle as (c & E & Hc).
    destruct (@lt float (double_scalar pw) b a) eqn:Hlt; [| reflexivity].
    apply double_lt_iff in Hlt. unfold double_compare in *.
    rewrite (SFcompare_sym (Prim2SF a) (Prim2SF b)), E in Hlt.
    destruct c; cbn in Hlt; congruence.
  - intros a b Hle. apply double_le_iff in Hle as (c & E & _).
    rewrite !double_eq_iff. now apply (SFcompare_ordered _ _ c).
  - intros a b Ha Hb. apply double_eq_iff in Ha, Hb.
    destruct (SFcompare_total _ _ Ha Hb) as (c & E).
    destruct c.
    + left. apply double_le_iff. exists Eq. split; [exact E | discriminate].
    + left. apply double_le_iff. exists Lt. split; [exact E | discriminate].
    + right. apply double_lt_iff. unfold double_compare.
      now rewrite (SFcompare_sym (Prim2SF a) (Prim2SF b)), E.
  - intros a b c Hab Hbc. apply double_le_iff in Hab as (c1 & E1 & H1).
    apply double_lt_iff in Hbc. apply double_lt_iff. unfold double_compare in *.
    rewrite (SFcompare_trans _ _ _ c1 Lt E1 Hbc H1) by discriminate.
    now destruct c1.
  - intros a b c Hab Hbc. apply double_lt_iff in Hab.
    apply double_le_iff in Hbc as (c2 & E2 & H2).
    apply double_lt_iff. unfold double_compare in *.
    now rewrite (SFcompare_trans _ _ _ Lt c2 Hab E2) by (discriminate || assumption).
  - intros a b c Hab Hbc. apply double_eq_iff in Hab.
    apply double_le_iff in Hbc as (c2 & E2 & H2).
    apply double_le_iff. exists c2. split; [| assumption]. unfold double_compare in *.
    now rewrite (SFcompare_trans _ _ _ Eq c2 Hab E2) by (discriminate || assumption).
  - intros a b c Hab Hbc. apply double_le_iff in Hab as (c1 & E1 & H1).
    apply double_eq_iff in Hbc.
    apply double_le_iff. exists c1. split; [| assumption]. unfold double_compare in *.
    rewrite (SFcompare_trans _ _ _ c1 Eq E1 Hbc H1) by discriminate.
    now destruct c1.
Qed.

End Double.

(** ** The claims on concrete tables *)


(** The same query on binary64 scalars. *)
Lemma scan_finds_witness :
  @configured float (double_scalar no_pow) squares_double = true
  /\ (exists k, 0 <= k < _length squares_double
               /\ @hit float (double_scalar no_pow) squares_double 1.5%float
                     (scan_index squares_double k) = true)
  /\ @value float (double_scalar no_pow) squares_double 1.5%float
     <> Fault NoReturnValue
  /\ (supported squares_double = true ->
      exists v s' l,
        @value float (double_scalar no_pow) squares_double 1.5%float = Ok (v, s') l).
Proof.
  split; [reflexivity |].
  apply (@scan_finds float (double_scalar no_pow) (double_order no_pow)
           squares_double 1.5%float 0%float 3%float); try reflexivity.
  cbn; lia.
Defined.

Lemma value_frame_witness :
  value cursor_at_2 (3 # 2)%Q = Ok ((5 # 2)%Q, set_prev_point 1 cursor_at_2) [1%Q]
  /\ _x (set_prev_point 1 cursor_at_2) = _x cursor_at_2
  /\ _length (set_prev_point 1 cursor_at_2) = _length cursor_at_2.
Proof.
  split; [reflexivity |].
  pose proof (value_frame cursor_at_2 (3 # 2)%Q (5 # 2)%Q
                (set_prev_point 1 cursor_at_2) [1%Q] eq_refl)
    as (Fx & _ & _ & Fl & _).
  split; assumption.
Defined.

Lemma flat_extrapolation_witness :
  configured cursor_at_2 = true
  /\ value cursor_at_2 (-1)%Q = Ok (0%Q, cursor_at_2) []
  /\ value cursor_at_2 10%Q = Ok (9%Q, cursor_at_2) []
  /\ value cursor_at_2 0%Q = Ok (0%Q, set_prev_point 0 cursor_at_2) []
  /\ value cursor_at_2 3%Q
     = Ok (9%Q, set_prev_point (_length cursor_at_2 - 1) cursor_at_2) [].
Proof.
  split; [reflexivity |].
  assert (Hp : 0 <= _prev_point cursor_at_2) by (cbn; lia).
  pose proof (fun x => flat_extrapolation cursor_at_2 x 0%Q 3%Q 0%Q 9%Q
                         eq_refl eq_refl eq_refl eq_refl eq_refl) as Hf.
  split; [apply (proj1 (Hf (-1)%Q)); reflexivity |].
  split; [apply (proj1 (proj2 (Hf 10%Q))); reflexivity |].
  split.
  - apply (proj1 (proj2 (proj2 (Hf 0%Q))) Hp); [reflexivity |].
    intros x1 [= <-]. reflexivity.
  - apply (proj2 (proj2 (proj2 (Hf 3%Q))) Hp); [reflexivity |].
    intros xp [= <-]. reflexivity.
Defined.

Lemma sample_point_witness :
  configured cursor_at_2 = true
  /\ exists k j yj,
      0 <= k < _length cursor_at_2
      /\ j = scan_index cursor_at_2 k
      /\ exact cursor_at_2 1%Q j = true
      /\ (forall k', 0 <= k' < k -> exact cursor_at_2 1%Q (scan_index cursor_at_2 k') = false)
      /\ sample (_y cursor_at_2) j = Some yj
      /\ value cursor_at_2 1%Q = Ok (yj, set_prev_point j cursor_at_2) [].
Proof.
  split; [reflexivity |].
  apply (sample_point cursor_at_2 1%Z 1%Q 1%Q); try reflexivity. cbn; lia.
Defined.

Lemma duplicate_abscissa_witness :
  configured late_pair = true
  /\ exact late_pair 1%Q 1 = true /\ exact late_pair 1%Q (1 + 1) = true
  /\ exists k j yj,
      0 <= k < _length late_pair
      /\ j = scan_index late_pair k
      /\ exact late_pair 1%Q j = true
      /\ (forall k', 0 <= k' < k -> exact late_pair 1%Q (scan_index late_pair k') = false)
      /\ sample (_y late_pair) j = Some yj
      /\ value late_pair 1%Q = Ok (yj, set_prev_point j late_pair) []
      /\ (_prev_point late_pair = 0 ->
          j <= 1 /\ forall j', 0 <= j' < j -> exact late_pair 1%Q j' = false).
Proof.
  split; [reflexivity |].
  apply (duplicate_abscissa late_pair 1%Z 1%Q 1%Q); reflexivity.
Defined.

Lemma linear_segment_witness :
  configured (squares Linear) = true
  /\ value (squares Linear) (3 # 2)%Q
     = Ok (spec_linear 1 2 1 4 (3 # 2), set_prev_point 1 (squares Linear))%Q [(2 - 1)%Q].
Proof.
  split; [reflexivity |].
  refine (proj1 (linear_segment (squares Linear) (3 # 2)%Q 1%Z 1%Q 2%Q 1%Q 4%Q
                   _ _ _ _ _ _ _) _ _); reflexivity.
Defined.

Lemma hermite_segment_witness :
  configured squares_m = true
  /\ value squares_m (3 # 2)%Q
     = Ok (spec_hermite 1 2 1 4 2 4 (3 # 2), set_prev_point 1 squares_m)%Q [(2 - 1)%Q].
Proof.
  split; [reflexivity |].
  refine (hermite_segment squares_m (3 # 2)%Q 1%Z 1%Q 2%Q 1%Q 4%Q 2%Q 4%Q
            _ _ _ _ _ _ _ _ _ _ _); reflexivity.
Defined.

Lemma catmull_tangent_guarded_witness :
  configured (squares Catmull) = true
  /\ exists xp xn yp yn,
      sample (_x (squares Catmull)) (1 - 1) = Some xp
      /\ sample (_x (squares Catmull)) (1 + 1) = Some xn
      /\ sample (_y (squares Catmull)) (1 - 1) = Some yp
      /\ sample (_y (squares Catmull)) (1 + 1) = Some yn
      /\ (eq xn xp = true -> catmull_tangent (squares Catmull) 1 = Ok 0%sc [])
      /\ (eq xn xp = false ->
          catmull_tangent (squares Catmull) 1
          = Ok (spec_tangent xp xn yp yn) [(xn - xp)%sc]
          /\ (ScalarSub Q -> eq (xn - xp)%sc 0%sc = false)).
Proof.
  split; [reflexivity |].
  apply (catmull_tangent_guarded (squares Catmull) 1); [reflexivity | cbn; lia].
Defined.

Lemma catmull_boundary_witness :
  configured (squares Catmull) = true
  /\ calc (squares Catmull) (1 # 2)%Q 0 = Ok 1%Q []
  /\ calc (squares Catmull) (5 # 2)%Q (_length (squares Catmull) - 2) = Ok 4%Q []
  /\ value (squares Catmull) (1 # 2)%Q = Ok (1%Q, set_prev_point 0 (squares Catmull)) []
  /\ value (squares Catmull) (5 # 2)%Q
     = Ok (4%Q, set_prev_point (_length (squares Catmull) - 2) (squares Catmull)) [].
Proof.
  split; [reflexivity |].
  assert (H2 : 2 <= _length (squares Catmull)) by (cbn; lia).
  assert (H3 : 3 <= _length (squares Catmull)) by (cbn; lia).
  pose proof (fun x => catmull_boundary (squares Catmull) x 1%Q 4%Q
                         eq_refl eq_refl H2 eq_refl eq_refl) as Hb.
  split; [apply (Hb (1 # 2)%Q) |].
  split; [apply (Hb (5 # 2)%Q), H3 |].
  split; [apply (Hb (1 # 2)%Q); reflexivity |].
  apply (Hb (5 # 2)%Q); [reflexivity | exact H3 | reflexivity].
Defined.

(** ** Where the claims as first stated fail *)

(** C1 as stated fails at the upper end of [twice] (x = [0; 0], y = [1; 2]):
    the query 0 is >= x[N-1], yet [value] answers from the exact match at
    index 0 and returns 1, not y[N-1] = 2. *)
Lemma flat_extrapolation_counterexample :
  configured twice = true
  /\ sample (_x twice) (_length twice - 1) = Some 0%Q
  /\ le 0%Q 0%Q = true
  /\ sample (_y twice) (_length twice - 1) = Some 2%Q
  /\ value twice 0%Q = Ok (1%Q, twice) []
  /\ ~ (forall yl, sample (_y twice) (_length twice - 1) = Some yl ->
                   exists s' l, value twice 0%Q = Ok (yl, s') l).
Proof.
  repeat (split; [reflexivity |]).
  intros Hclaim. destruct (Hclaim 2%Q eq_refl) as (s' & l & E).
  discriminate E.
Qed.

(** C2 as stated fails at the last sample of [late_pair] (x = [0; 1; 1],
    y = [1; 2; 3]): [value(x[2])] stops at index 1 and returns 2, not
    y[2] = 3. *)
Lemma sample_point_counterexample :
  configured late_pair = true
  /\ sample (_x late_pair) 2 = Some 1%Q
  /\ sample (_y late_pair) 2 = Some 3%Q
  /\ value late_pair 1%Q = Ok (2%Q, set_prev_point 1 late_pair) []
  /\ ~ (forall xi yi, sample (_x late_pair) 2 = Some xi ->
                      sample (_y late_pair) 2 = Some yi ->
                      exists s' l, value late_pair xi = Ok (yi, s') l).
Proof.
  repeat (split; [reflexivity |]).
  intros Hclaim. destruct (Hclaim 1%Q 3%Q eq_refl eq_refl) as (s' & l & E).
  discriminate E.
Qed.

(** C8 as stated fails twice.  In [thrice] (x = [0; 0; 0], y = [1; 2; 3])
    samples 1 and 2 share their abscissa and [value] there returns y[0] = 1,
    not y[1] = 2.  In [reconfigured] (x = [0; 0], y = [1; 2], the cursor left
    at 1 by a query on an earlier table) samples 0 and 1 share theirs and
    [value] returns the second ordinate, 2. *)
Lemma duplicate_abscissa_counterexample :
  (configured thrice = true
   /\ sample (_x thrice) 1 = Some 0%Q /\ sample (_x thrice) (1 + 1) = Some 0%Q
   /\ sample (_y thrice) 1 = Some 2%Q
   /\ value thrice 0%Q = Ok (1%Q, thrice) [])
  /\ (configured reconfigured = true /\ _prev_point reconfigured = 1
      /\ sample (_x reconfigured) 0 = Some 0%Q
      /\ sample (_x reconfigured) (0 + 1) = Some 0%Q
      /\ sample (_y reconfigured) 0 = Some 1%Q
      /\ value reconfigured 0%Q = Ok (2%Q, reconfigured) [])
  /\ ~ (forall (s : Spline Q) i xi xi1 yi,
          configured s = true -> 0 <= _prev_point s < _length s ->
          sample (_x s) i = Some xi -> sample (_x s) (i + 1) = Some xi1 ->
          eq xi xi1 = true -> sample (_y s) i = Some yi ->
          exists s' l, value s xi = Ok (yi, s') l).
Proof.
  split; [repeat split |]. split; [repeat split |].
  intros Hclaim.
  destruct (Hclaim thrice 1 0%Q 0%Q 2%Q) as (s' & l & E); try reflexivity.
  - cbn; lia.
  - discriminate E.
Qed.

(** C9 as stated fails on the squares (configured, sorted, cursor 0) at the
    query 3/2, which is within the range: with the degree 7 the switch of
    [calc] matches no case and ends without [return], and with the degree
    10 and no tangent array [calc] reads [_m[1]] outside of it.  The scan
    did find segment 1 in both runs; [value] returns no scalar. *)
Lemma scan_finds_counterexample :
  (configured (squares 7) = true
   /\ 0 <= _prev_point (squares 7) < _length (squares 7)
   /\ sample (_x (squares 7)) 0 = Some 0%Q
   /\ sample (_x (squares 7)) (_length (squares 7) - 1) = Some 3%Q
   /\ le 0%Q (3 # 2)%Q = true /\ le (3 # 2)%Q 3%Q = true
   /\ value (squares 7) (3 # 2)%Q = Fault NoReturnCalc)
  /\ (configured (squares Hermite) = true
      /\ 0 <= _prev_point (squares Hermite) < _length (squares Hermite)
      /\ value (squares Hermite) (3 # 2)%Q = Fault OutOfBounds)
  /\ ~ (forall (s : Spline Q) (x x0 xl : Q),
          configured s = true -> 0 <= _prev_point s < _length s ->
          sample (_x s) 0 = Some x0 -> sample (_x s) (_length s - 1) = Some xl ->
          le x0 x = true -> le x xl = true ->
          exists v s' l, value s x = Ok (v, s') l).
Proof.
  split.
  { split; [reflexivity |]. split; [cbn; lia |]. repeat split. }
  split.
  { split; [reflexivity |]. split; [cbn; lia |]. reflexivity. }
  intros Hclaim.
  destruct (Hclaim (squares 7) (3 # 2)%Q 0%Q 3%Q) as (v & s' & l & E);
    try reflexivity.
  - cbn; lia.
  - discriminate E.
Qed.

(** C5 as stated fails under both readings of "second-to-last segment".
    Read as the segment that starts at the second-to-last sample (index
    N-2, the test of the code): in [two_points] (x = [0; 1], y = [5; 7])
    that segment is also the first, and [calc] returns y[1] = 7, not
    y[N-2] = 5.  Read as the segment before the last one (index N-3): in the
    squares it is segment 1, an interior one, and [calc] blends (9/4 at
    x = 3/2) instead of returning y[N-2] = 4. *)
Lemma catmull_boundary_counterexample :
  (configured two_points = true /\ _degree two_points = Catmull
   /\ inside two_points (1 # 2)%Q (_length two_points - 2) = true
   /\ sample (_y two_points) (_length two_points - 2) = Some 5%Q
   /\ calc two_points (1 # 2)%Q (_length two_points - 2) = Ok 7%Q [])
  /\ (configured (squares Catmull) = true
      /\ inside (squares Catmull) (3 # 2)%Q (_length (squares Catmull) - 3) = true
      /\ sample (_y (squares Catmull)) (_length (squares Catmull) - 2) = Some 4%Q
      /\ exists v, calc (squares Catmull) (3 # 2)%Q (_length (squares Catmull) - 3)
                   = Ok v [1%Q; 2%Q; 2%Q]
                   /\ (v == 9 # 4)%Q).
Proof.
  split; [repeat split |]. repeat (split; [reflexivity |]).
  eexists. split; reflexivity.
Qed.


(** The range tests and the scan all fail on an unordered query: [value]
    reaches the end of its loop.  This is outside the precondition of C9
    ([x[0] <= x] is false of a NaN). *)
Example nan_query_falls_through :
  @configured float (double_scalar no_pow) squares_double = true
  /\ @le float (double_scalar no_pow) 0%float nan = false
  /\ @value float (double_scalar no_pow) squares_double nan = Fault NoReturnValue.
Proof. repeat split. Qed.

(** A table whose only abscissa is unordered is not a configured table: no
    query has an answer in it, that abscissa itself included. *)
Example nan_table_not_configured :
  @nondecreasing float (double_scalar no_pow) [nan] = false
  /\ @value float (double_scalar no_pow)
       (Spline_xy [nan] [1%float] 1 Linear squares_double) nan
     = Fault NoReturnValue.
Proof. split; reflexivity. Qed.

(** ** Beyond the claims: runs of [value] in full *)

Section Results.

Context {T : Type} `{SO : ScalarOrder T}.

(** A loop that returns did so at an index of its scan that is a hit, with
    the result of that index. *)
Lemma value_loop_result (s : Spline T) (x : T) :
  forall (n : nat) (i : Z) v s' l,
    value_loop s x n i = Ok (v, s') l ->
    exists k, i <= k < i + Z.of_nat n
      /\ hit s x (scan_index s k) = true
      /\ result_at s x (scan_index s k) = Ok (v, s') l.
Proof.
  induction n as [| n IH]; intros i v s' l E; [discriminate |].
  cbn [value_loop] in E. fold (scan_index s i) in E.
  remember (scan_index s i) as j eqn:Ej.
  apply bind_Ok_inv in E as (xj & l1 & l2 & Exj & E & ->).
  apply rd_Ok in Exj as [Exj ->]. cbn [app].
  destruct (eq xj x) eqn:Eeq.
  - exists i. split; [lia |]. rewrite <- Ej.
    unfold hit, result_at, exact. rewrite Exj, Eeq.
    split; [reflexivity | exact E].
  - apply bind_Ok_inv in E as (b & l3 & l4 & Eb & E & ->).
    assert (Hb : l3 = [] /\ b = inside s x j).
    { unfold inside. rewrite Exj. destruct (lt xj x).
      - apply bind_Ok_inv in Eb as (xn & l5 & l6 & Exn & Eb & ->).
        apply rd_Ok in Exn as [Exn ->]. rewrite Exn.
        injection Eb as <- <-. split; reflexivity.
      - injection Eb as <- <-. destruct (sample (_x s) (j + 1)); split; reflexivity. }
    destruct Hb as [-> ->]. cbn [app].
    destruct (inside s x j) eqn:Ein.
    + exists i. split; [lia |]. rewrite <- Ej. unfold hit, result_at, exact.
      rewrite Exj, Eeq, Ein. split; [reflexivity | exact E].
    + destruct (IH (i + 1) v s' l4 E) as (k & Hk & Hhit & Hres).
      exists k. split; [lia | split; assumption].
Qed.

(** The three ways [value] returns. *)
Lemma value_result (s : Spline T) (x v : T) (s' : Spline T) (l : list T) :
  value s x = Ok (v, s') l ->
  (exists x0, sample (_x s) 0 = Some x0 /\ gt x0 x = true
              /\ sample (_y s) 0 = Some v /\ s' = s /\ l = [])
  \/ (exists x0 xl, sample (_x s) 0 = Some x0 /\ gt x0 x = false
                    /\ sample (_x s) (_length s - 1) = Some xl /\ lt xl x = true
                    /\ sample (_y s) (_length s - 1) = Some v /\ s' = s /\ l = [])
  \/ (exists x0 xl k, sample (_x s) 0 = Some x0 /\ gt x0 x = false
                      /\ sample (_x s) (_length s - 1) = Some xl /\ lt xl x = false
                      /\ 0 <= k < _length s
                      /\ hit s x (scan_index s k) = true
                      /\ result_at s x (scan_index s k) = Ok (v, s') l).
Proof.
  intros E. unfold value in E.
  apply bind_Ok_inv in E as (x0 & l1 & l2 & E0 & E & ->).
  apply rd_Ok in E0 as [E0 ->]. cbn [app].
  destruct (gt x0 x) eqn:Hgt.
  - apply bind_Ok_inv in E as (y0 & l3 & l4 & Ey & E & ->).
    apply rd_Ok in Ey as [Ey ->]. injection E as <- <- <-.
    left. exists x0. auto.
  - apply bind_Ok_inv in E as (xl & l3 & l4 & El & E & ->).
    apply rd_Ok in El as [El ->]. cbn [app].
    destruct (lt xl x) eqn:Hlt.
    + apply bind_Ok_inv in E as (yl & l5 & l6 & Ey & E & ->).
      apply rd_Ok in Ey as [Ey ->]. injection E as <- <- <-.
      right. left. exists x0, xl. auto 10.
    + apply value_loop_result in E as (k & Hk & Hhit & Hres).
      right. right. exists x0, xl, k.
      repeat (split; [assumption |]). split; [lia |]. split; assumption.
Qed.

End Results.

(** ** Beyond the claims: the cursor across calls *)

Section History.

Context {T : Type} `{SO : ScalarOrder T}.

Lemma result_at_defined (s : Spline T) (x : T) (j : Z) :
  configured s = true -> supported s = true -> hit s x j = true ->
  exists v l, result_at s x j = Ok (v, set_prev_point j s) l.
Proof.
  intros Hc Hsup Hhit. destruct (exact s x j) eqn:He.
  - unfold exact in He. destruct (sample (_x s) j) as [xj |] eqn:Exj; [| discriminate].
    destruct (y_some s j Hc (x_range s j xj Hc Exj)) as [yj Eyj].
    exists yj, []. apply result_at_exact; [| assumption].
    unfold exact. now rewrite Exj.
  - unfold hit in Hhit. rewrite He in Hhit. cbn [orb] in Hhit.
    destruct (calc_defined s x j Hc Hsup Hhit) as (v & l & Ev).
    exists v, l. rewrite (result_at_inside s x j He), Ev. cbn.
    now rewrite app_nil_r.
Qed.

(** X4. On a configured table with a supported degree, an object reached
    through the constructors, the setters and earlier calls of [value]
    answers every query that is ordered ([x == x], so not a NaN): no read
    leaves the arrays and no function ends without [return], also when the
    cursor comes from a longer table. *)
Theorem value_total (s : Spline T) (x : T) :
  reachable s -> configured s = true -> supported s = true ->
  eq x x = true ->
  exists v s' l, value s x = Ok (v, s') l.
Proof.
  intros Hr Hc Hsup Hx.
  pose proof (reachable_cursor s Hr) as Hp.
  pose proof (configured_inv s Hc) as (HN & _).
  destruct (x_some s 0 Hc) as [x0 E0]; [lia |].
  destruct (x_some s (_length s - 1) Hc) as [xl El]; [lia |].
  destruct (y_some s 0 Hc) as [y0 Ey0]; [lia |].
  destruct (y_some s (_length s - 1) Hc) as [yl Eyl]; [lia |].
  assert (H0 : eq x0 x0 = true).
  { apply (le_ordered x0 x0), (table_le s 0 0); (assumption || lia). }
  assert (Hl : eq xl xl = true).
  { apply (le_ordered xl xl), (table_le s (_length s - 1) (_length s - 1));
      (assumption || lia). }
  destruct (lt_total x0 x H0 Hx) as [Hlo | Hlo].
  2:{ exists y0, s, []. unfold value, gt.
      now rewrite (rd_sample _ _ _ E0), bind_Ok_nil, Hlo,
        (rd_sample _ _ _ Ey0), bind_Ok_nil. }
  destruct (lt_total x xl Hx Hl) as [Hhi | Hhi].
  - destruct (value_scan s x x0 xl Hc Hp E0 El Hlo Hhi) as (k & _ & Hhit & _ & Hv).
    destruct (result_at_defined s x _ Hc Hsup Hhit) as (v & l & Er).
    exists v, (set_prev_point (scan_index s k) s), l. now rewrite Hv.
  - exists yl, s, []. unfold value, gt.
    rewrite (rd_sample _ _ _ E0), bind_Ok_nil, (le_not_gt _ _ Hlo).
    now rewrite (rd_sample _ _ _ El), bind_Ok_nil, Hhi,
      (rd_sample _ _ _ Eyl), bind_Ok_nil.
Qed.

(** X5. The cursor of an object reached through the constructors, the
    setters and calls of [value] is never negative; a call of [value] that
    returns leaves the object as it was or moves the cursor to the index of a
    cell of the [x] array. *)
Theorem cursor_stays_index (s : Spline T) :
  reachable s ->
  0 <= _prev_point s
  /\ forall x v s' l,
      value s x = Ok (v, s') l ->
      s' = s \/ 0 <= _prev_point s' < Z.of_nat (length (_x s)).
Proof.
  intros Hr. split; [now apply reachable_cursor |].
  intros x v s' l E.
  apply value_Ok_cases in E as [[-> _] | [_ (j & Hj & ->)]]; [now left | right].
  cbn. unfold hit, exact, inside in Hj.
  destruct (sample (_x s) j) as [xj |] eqn:Exj; [| discriminate].
  now apply sample_range in Exj.
Qed.

(** X6. Asking again.  On a configured table, when [value(x)] has returned,
    the same query on the object it left returns the same scalar with the
    same divisions and leaves that object as it is: the scan now stops at the
    first index it looks at. *)
Theorem value_repeat (s : Spline T) (x v : T) (s' : Spline T) (l : list T) :
  configured s = true ->
  value s x = Ok (v, s') l ->
  value s' x = Ok (v, s') l
  /\ (s' = s \/ hit s' x (scan_index s' 0) = true).
Proof.
  intros Hc E. pose proof E as E'.
  apply value_result in E' as [(x0 & _ & _ & _ & -> & _)
                              | [(x0 & xl & _ & _ & _ & _ & _ & -> & _)
                              | (x0 & xl & k & E0 & Hgt & El & Hlt & Hk & Hhit & Hres)]].
  - split; [assumption | now left].
  - split; [assumption | now left].
  - pose proof (configured_inv s Hc) as (HN & _).
    set (j := scan_index s k) in *.
    assert (Hs' : s' = set_prev_point j s).
    { unfold result_at in Hres.
      destruct (exact s x j);
        apply bind_Ok_inv in Hres as (w & l1 & l2 & _ & Hres & _);
        now injection Hres as _ <- _. }
    assert (Hj : 0 <= j < _length s).
    { unfold hit, exact, inside in Hhit.
      destruct (sample (_x s) j) as [xj |] eqn:Exj; [| discriminate].
      apply (x_range s j xj Hc Exj). }
    assert (Hidx : scan_index s' 0 = j).
    { subst s'. unfold scan_index. cbn. apply Z.rem_small. lia. }
    subst s'. split; [| right; rewrite Hidx; exact Hhit].
    rewrite (value_in_range (set_prev_point j s) x x0 xl E0 El Hgt Hlt).
    cbn [_length set_prev_point].
    destruct (Z.to_nat (_length s)) as [| n] eqn:En; [lia |].
    rewrite value_loop_step.
    + rewrite Hidx.
      change (hit (set_prev_point j s) x j) with (hit s x j). rewrite Hhit.
      exact Hres.
    + exact Hc.
    + cbn. lia.
    + lia.
    + intros xl' El'. cbn in El'. congruence.
Qed.

Lemma increasing_nth (l : list T) :
  increasing l = true ->
  forall (i j : nat) (a b : T),
    (i < j)%nat -> nth_error l i = Some a -> nth_error l j = Some b ->
    lt a b = true.
Proof.
  induction l as [| h t IH]; intros Hs i j a b Hij Ha Hb.
  - destruct i; discriminate.
  - cbn [increasing] in Hs. apply andb_true_iff in Hs as [Hall Ht].
    destruct j as [| j']; [lia |]. simpl in Hb.
    destruct i as [| i'].
    + injection Ha as <-. apply nth_error_In in Hb.
      rewrite forallb_forall in Hall. now apply Hall.
    + simpl in Ha. apply (IH Ht i' j'); [lia | assumption | assumption].
Qed.

(** Without repeated abscissae a query has one hit at most. *)
Lemma hit_unique_increasing (s : Spline T) (x : T) (i j : Z) :
  configured s = true -> increasing (_x s) = true ->
  hit s x i = true -> hit s x j = true -> j = i.
Proof.
  intros Hc Hinc Hi Hj.
  destruct (inside s x i) eqn:Ii; [now apply (inside_unique s x i j) |].
  destruct (inside s x j) eqn:Ij; [symmetry; now apply (inside_unique s x j i) |].
  unfold hit in Hi, Hj. rewrite Ii, orb_false_r in Hi. rewrite Ij, orb_false_r in Hj.
  unfold exact in Hi, Hj.
  destruct (sample (_x s) i) as [xi |] eqn:Exi; [| discriminate].
  destruct (sample (_x s) j) as [xj |] eqn:Exj; [| discriminate].
  assert (Hstrict : forall p q a b, p < q -> sample (_x s) p = Some a ->
                      sample (_x s) q = Some b -> eq a x = true -> eq b x = true -> False).
  { intros p q a b Hpq Ea Eb Hax Hbx.
    pose proof (sample_range _ _ _ Ea) as Rp. pose proof (sample_range _ _ _ Eb) as Rq.
    unfold sample in Ea, Eb.
    destruct (Z.ltb_spec p 0); [lia |]. destruct (Z.ltb_spec q 0); [lia |].
    assert (Hlt : lt a b = true).
    { apply (increasing_nth (_x s) Hinc (Z.to_nat p) (Z.to_nat q)); (assumption || lia). }
    assert (Hle : le b a = true).
    { apply (eq_le_trans b x a); [assumption | now apply eq_ge]. }
    apply le_not_gt in Hle. congruence. }
  destruct (Z.lt_trichotomy j i) as [Hlt | [Heq | Hgt]]; [exfalso | assumption | exfalso].
  - apply (Hstrict j i xj xi); assumption.
  - apply (Hstrict i j xi xj); assumption.
Qed.

(** Among the first [n] integers a boolean predicate holds somewhere or
    nowhere. *)
Lemma somewhere_or_nowhere (P : Z -> bool) (n : nat) :
  (exists k, 0 <= k < Z.of_nat n /\ P k = true)
  \/ (forall k, 0 <= k < Z.of_nat n -> P k = false).
Proof.
  induction n as [| n [(k & Hk & Pk) | Hnone]].
  - right. intros k Hk. lia.
  - left. exists k. split; [lia | assumption].
  - destruct (P (Z.of_nat n)) eqn:Pn.
    + left. exists (Z.of_nat n). split; [lia | assumption].
    + right. intros k Hk.
      destruct (Z.eq_dec k (Z.of_nat n)) as [-> | Hne]; [assumption |].
      apply Hnone. lia.
Qed.

(** X7. The cursor is an accelerator only.  On a configured table without
    repeated abscissae, two objects that differ by their cursors (neither
    negative) give every query the same scalar with the same divisions, or
    the same fault; past the two range tests they also leave the same
    object. *)
Theorem cursor_independent (s : Spline T) (x : T) (c1 c2 : Z) :
  configured s = true -> increasing (_x s) = true ->
  0 <= c1 -> 0 <= c2 ->
  answer (value (set_prev_point c1 s) x) = answer (value (set_prev_point c2 s) x)
  /\ (forall x0 xl,
         sample (_x s) 0 = Some x0 -> sample (_x s) (_length s - 1) = Some xl ->
         gt x0 x = false -> lt xl x = false ->
         value (set_prev_point c1 s) x = value (set_prev_point c2 s) x).
Proof.
  intros Hc Hinc H1 H2.
  pose proof (configured_inv s Hc) as (HN & _).
  destruct (x_some s 0 Hc) as [x0 E0]; [lia |].
  destruct (x_some s (_length s - 1) Hc) as [xl El]; [lia |].
  assert (Hloop : gt x0 x = false -> lt xl x = false ->
                  value (set_prev_point c1 s) x = value (set_prev_point c2 s) x).
  { intros Hgt Hlt.
    assert (Hab : forall c, not_above (set_prev_point c s) x).
    { intros c xl' El'. cbn in El'. congruence. }
    assert (Hv : forall c, 0 <= c ->
               value (set_prev_point c s) x
               = value_loop (set_prev_point c s) x (Z.to_nat (_length s)) 0).
    { intros c _. apply (value_in_range (set_prev_point c s) x x0 xl); assumption. }
    destruct (somewhere_or_nowhere (hit s x) (Z.to_nat (_length s)))
      as [(j & Hj & Hhit) | Hnone].
    - assert (Hone : forall c, 0 <= c ->
                 value (set_prev_point c s) x = result_at s x j).
      { intros c Hcpos.
        apply (value_unique_hit (set_prev_point c s) x j Hc Hcpos Hhit).
        intros j' Hj'. now apply (hit_unique_increasing s x j j'). }
      now rewrite (Hone c1 H1), (Hone c2 H2).
    - assert (Hnot : forall c, 0 <= c ->
                 value (set_prev_point c s) x = Fault NoReturnValue).
      { intros c Hcpos. rewrite (Hv c Hcpos).
        apply (value_loop_none (set_prev_point c s) x Hc Hcpos (Hab c)); [lia |].
        intros k Hk.
        change (hit (set_prev_point c s) x (scan_index (set_prev_point c s) k))
          with (hit s x (scan_index (set_prev_point c s) k)).
        apply Hnone.
        pose proof (scan_index_range (set_prev_point c s) k HN Hcpos (proj1 Hk)) as Hr.
        cbn [_length set_prev_point] in Hr. lia. }
      now rewrite (Hnot c1 H1), (Hnot c2 H2). }
  split.
  - destruct (y_some s 0 Hc) as [y0 Ey0]; [lia |].
    destruct (y_some s (_length s - 1) Hc) as [yl Eyl]; [lia |].
    destruct (gt x0 x) eqn:Hgt.
    { unfold value. cbn [_x _y _length set_prev_point].
      now rewrite (rd_sample _ _ _ E0), !bind_Ok_nil, Hgt,
        (rd_sample _ _ _ Ey0), !bind_Ok_nil. }
    destruct (lt xl x) eqn:Hlt.
    { unfold value. cbn [_x _y _length set_prev_point].
      now rewrite (rd_sample _ _ _ E0), !bind_Ok_nil, Hgt,
        (rd_sample _ _ _ El), !bind_Ok_nil, Hlt,
        (rd_sample _ _ _ Eyl), !bind_Ok_nil. }
    now rewrite Hloop.
  - intros x0' xl' E0' El' Hgt Hlt.
    assert (x0' = x0) by congruence. assert (xl' = xl) by congruence. subst.
    now apply Hloop.
Qed.

End History.

(** ** Beyond the claims: the other cases of [calc] *)

Section Cases.

Context {T : Type} `{SO : ScalarOrder T}.

(** X1. Degree 0 is a step function.  On a configured table with degree 0
    a query with [x[i] < x < x[i+1]] returns [y[i]], the ordinate at the
    left end of its segment; nothing is divided and the cursor moves to
    [i]. *)
Theorem constant_segment (s : Spline T) (x : T) (i : Z) (xi xi1 yi : T) :
  configured s = true -> _degree s = 0 -> 0 <= _prev_point s ->
  sample (_x s) i = Some xi -> sample (_x s) (i + 1) = Some xi1 ->
  sample (_y s) i = Some yi ->
  lt xi x = true -> lt x xi1 = true ->
  value s x = Ok (yi, set_prev_point i s) [].
Proof.
  intros Hc Hd Hp Exi Exi1 Eyi Hlo Hhi.
  rewrite (value_inside s x i Hc Hp (inside_intro s x i xi xi1 Exi Exi1 Hlo Hhi)).
  now rewrite (calc_constant s x i yi Hd Eyi).
Qed.

(** X2. The switch of [calc] has no default.  On a configured table whose
    degree is none of 0, 1, 10 and 11, a query strictly inside a segment
    makes [calc] end without [return]; queries outside the range and
    queries that equal a sample's abscissa are not affected by the degree. *)
Theorem unknown_degree (s : Spline T) (x : T) (i : Z) :
  configured s = true -> 0 <= _prev_point s ->
  _degree s <> 0 -> _degree s <> 1 ->
  _degree s <> Hermite -> _degree s <> Catmull ->
  inside s x i = true ->
  value s x = Fault NoReturnCalc.
Proof.
  intros Hc Hp H0 H1 H10 H11 Hin.
  rewrite (value_inside s x i Hc Hp Hin). unfold calc.
  destruct (Z.eqb_spec (_degree s) 0); [contradiction |].
  destruct (Z.eqb_spec (_degree s) 1); [contradiction |].
  destruct (Z.eqb_spec (_degree s) Hermite); [contradiction |].
  destruct (Z.eqb_spec (_degree s) Catmull); [contradiction |].
  reflexivity.
Qed.

(** The two slopes of an interior segment of a sorted table: with
    [x[i] < x[i+1]] neither guard of [catmull_tangent] fires. *)
Lemma interior_tangents (s : Spline T) (i : Z) (xp xi xi1 xn yp yi yi1 yn : T) :
  configured s = true ->
  sample (_x s) (i - 1) = Some xp -> sample (_x s) i = Some xi ->
  sample (_x s) (i + 1) = Some xi1 -> sample (_x s) (i + 2) = Some xn ->
  sample (_y s) (i - 1) = Some yp -> sample (_y s) i = Some yi ->
  sample (_y s) (i + 1) = Some yi1 -> sample (_y s) (i + 2) = Some yn ->
  lt xi xi1 = true ->
  catmull_tangent s i = Ok (spec_tangent xp xi1 yp yi1) [(xi1 - xp)%sc]
  /\ catmull_tangent s (i + 1) = Ok (spec_tangent xi xn yi yn) [(xn - xi)%sc].
Proof.
  intros Hc Exp Exi Exi1 Exn Eyp Eyi Eyi1 Eyn Hends.
  assert (G0 : eq xi1 xp = false).
  { rewrite eq_sym. apply lt_not_eq. apply (le_lt_trans xp xi xi1); [| assumption].
    apply (table_le s (i - 1) i); (assumption || lia). }
  assert (G1 : eq xn xi = false).
  { rewrite eq_sym. apply lt_not_eq. apply (lt_le_trans xi xi1 xn); [assumption |].
    apply (table_le s (i + 1) (i + 2)); (assumption || lia). }
  split.
  - rewrite (catmull_tangent_eval s i xp xi1 yp yi1) by assumption. now rewrite G0.
  - rewrite (catmull_tangent_eval s (i + 1) xi xn yi yn).
    + now rewrite G1.
    + now replace (i + 1 - 1) with i by lia.
    + now replace (i + 1 + 1) with (i + 2) by lia.
    + now replace (i + 1 - 1) with i by lia.
    + now replace (i + 1 + 1) with (i + 2) by lia.
Qed.

(** X3. Catmull-Rom degree on an interior segment.  On a configured table
    with degree 11 and [0 < i < N-2], a query with [x[i] < x < x[i+1]]
    returns the Hermite blend of [y[i]] and [y[i+1]] with the centred
    slopes [(y[i+1]-y[i-1])/(x[i+1]-x[i-1])] and
    [(y[i+2]-y[i])/(x[i+2]-x[i])]: on a sorted table neither slope guard
    fires for such a query, and the run makes exactly three divisions. *)
Theorem catmull_interior (s : Spline T) (x : T) (i : Z)
        (xp xi xi1 xn yp yi yi1 yn : T) :
  configured s = true -> _degree s = Catmull -> 0 <= _prev_point s ->
  0 < i < _length s - 2 ->
  sample (_x s) (i - 1) = Some xp -> sample (_x s) i = Some xi ->
  sample (_x s) (i + 1) = Some xi1 -> sample (_x s) (i + 2) = Some xn ->
  sample (_y s) (i - 1) = Some yp -> sample (_y s) i = Some yi ->
  sample (_y s) (i + 1) = Some yi1 -> sample (_y s) (i + 2) = Some yn ->
  lt xi x = true -> lt x xi1 = true ->
  value s x
  = Ok (hermite ((x - xi) / (xi1 - xi))%sc yi yi1
          (spec_tangent xp xi1 yp yi1) (spec_tangent xi xn yi yn) xi xi1,
        set_prev_point i s)
       [(xi1 - xi)%sc; (xi1 - xp)%sc; (xn - xi)%sc].
Proof.
  intros Hc Hd Hp Hi Exp Exi Exi1 Exn Eyp Eyi Eyi1 Eyn Hlo Hhi.
  assert (Hends : lt xi xi1 = true).
  { apply (lt_le_trans xi x xi1); [assumption | now apply lt_le]. }
  destruct (interior_tangents s i xp xi xi1 xn yp yi yi1 yn
              Hc Exp Exi Exi1 Exn Eyp Eyi Eyi1 Eyn Hends) as [T0 T1].
  rewrite (value_inside s x i Hc Hp (inside_intro s x i xi xi1 Exi Exi1 Hlo Hhi)).
  rewrite (calc_catmull_interior s x i xi xi1 yi yi1
             (spec_tangent xp xi1 yp yi1) (spec_tangent xi xn yi yn)
             [(xi1 - xp)%sc] [(xn - xi)%sc] Hd)
    by (assumption || lia).
  reflexivity.
Qed.

(** X9. Hermite degree without tangents.  On a configured table with
    degree 10 whose tangent array lacks cell [i] or cell [i+1], a query
    with [x[i] < x < x[i+1]] reads outside the tangent array. *)
Theorem hermite_without_tangents (s : Spline T) (x : T) (i : Z) :
  configured s = true -> _degree s = Hermite -> 0 <= _prev_point s ->
  inside s x i = true ->
  sample (_m s) i = None \/ sample (_m s) (i + 1) = None ->
  value s x = Fault OutOfBounds.
Proof.
  intros Hc Hd Hp Hin Hm.
  rewrite (value_inside s x i Hc Hp Hin).
  destruct (inside_range s x i Hc Hin) as [Hi0 Hi1].
  destruct (x_some s i Hc) as [xi Exi]; [lia |].
  destruct (x_some s (i + 1) Hc) as [xi1 Exi1]; [lia |].
  destruct (y_some s i Hc) as [yi Eyi]; [lia |].
  destruct (y_some s (i + 1) Hc) as [yi1 Eyi1]; [lia |].
  unfold calc. rewrite Hd. cbn [Z.eqb Pos.eqb Hermite].
  rewrite (rd_sample _ _ _ Exi), bind_Ok_nil, (rd_sample _ _ _ Exi1), bind_Ok_nil.
  unfold divide. cbn [bind].
  rewrite (rd_sample _ _ _ Eyi), (rd_sample _ _ _ Eyi1). unfold rd.
  destruct (sample (_m s) i) as [mi |]; [| reflexivity].
  destruct Hm as [Hm | Hm]; [discriminate |]. now rewrite Hm.
Qed.

(** X10. [catmull_tangent] is defined on the interior indices and on no
    other: on a configured table it returns exactly when [0 < i < N-1];
    at [0] it reads [_x[-1]] and at [N-1] it reads [_x[N]].  This is what
    the two boundary cases of [calc] keep it from. *)
Theorem catmull_tangent_interior_only (s : Spline T) (i : Z) :
  configured s = true ->
  ((exists m l, catmull_tangent s i = Ok m l) <-> 0 < i < _length s - 1)
  /\ catmull_tangent s 0 = Fault OutOfBounds
  /\ catmull_tangent s (_length s - 1) = Fault OutOfBounds.
Proof.
  intros Hc. pose proof (configured_inv s Hc) as (HN & Hx & _).
  assert (Hout : forall j, ~ 0 < j < _length s - 1 ->
                           catmull_tangent s j = Fault OutOfBounds).
  { intros j Hj. unfold catmull_tangent, rd.
    destruct (sample (_x s) (j + 1)) as [xn |] eqn:Exn; [| reflexivity].
    destruct (sample (_x s) (j - 1)) as [xp |] eqn:Exp; [| reflexivity].
    apply sample_range in Exn, Exp. lia. }
  split; [split |].
  - intros (m & l & E).
    destruct (Z_lt_dec 0 i) as [H0 |]; [destruct (Z_lt_dec i (_length s - 1)) |];
      try lia; rewrite Hout in E by lia; discriminate.
  - now apply catmull_tangent_defined.
  - split; apply Hout; lia.
Qed.

(** X8. A count that does not fit the [x] array.  When [_length - 1] is not
    the index of a cell of [_x] (a count of 0 or less, or more than the
    array holds), [value] never scans: a query below [x[0]] returns [y[0]]
    and leaves the object as it is, every other query reads outside the
    array, and no run returns in another way. *)
Theorem bad_count (s : Spline T) (x : T) :
  _length s <= 0 \/ Z.of_nat (length (_x s)) < _length s ->
  (forall x0 y0,
      sample (_x s) 0 = Some x0 -> gt x0 x = true -> sample (_y s) 0 = Some y0 ->
      value s x = Ok (y0, s) [])
  /\ (forall x0,
        sample (_x s) 0 = Some x0 -> gt x0 x = false ->
        value s x = Fault OutOfBounds)
  /\ (sample (_x s) 0 = None -> value s x = Fault OutOfBounds)
  /\ (forall v s' l,
        value s x = Ok (v, s') l ->
        s' = s /\ l = [] /\ sample (_y s) 0 = Some v
        /\ exists x0, sample (_x s) 0 = Some x0 /\ gt x0 x = true)
  /\ (value s x = Fault OutOfBounds
      \/ exists x0 y0, sample (_x s) 0 = Some x0 /\ gt x0 x = true
                       /\ sample (_y s) 0 = Some y0
                       /\ value s x = Ok (y0, s) []).
Proof.
  intros Hbad.
  assert (El : sample (_x s) (_length s - 1) = None).
  { destruct (sample (_x s) (_length s - 1)) as [xl |] eqn:E; [| reflexivity].
    apply sample_range in E. lia. }
  assert (Hbelow : forall x0 y0,
             sample (_x s) 0 = Some x0 -> gt x0 x = true ->
             sample (_y s) 0 = Some y0 -> value s x = Ok (y0, s) []).
  { intros x0 y0 E0 Hgt Ey0. unfold value.
    now rewrite (rd_sample _ _ _ E0), bind_Ok_nil, Hgt,
      (rd_sample _ _ _ Ey0), bind_Ok_nil. }
  assert (Hother : forall x0,
             sample (_x s) 0 = Some x0 -> gt x0 x = false ->
             value s x = Fault OutOfBounds).
  { intros x0 E0 Hgt. unfold value.
    rewrite (rd_sample _ _ _ E0), bind_Ok_nil, Hgt. unfold rd. now rewrite El. }
  assert (Hnone : sample (_x s) 0 = None -> value s x = Fault OutOfBounds).
  { intros E0. unfold value, rd. now rewrite E0. }
  split; [exact Hbelow |]. split; [exact Hother |]. split; [exact Hnone |].
  split.
  - intros v s' l E.
    destruct (sample (_x s) 0) as [x0 |] eqn:E0.
    2:{ rewrite (Hnone eq_refl) in E. discriminate. }
    destruct (gt x0 x) eqn:Hgt.
    2:{ rewrite (Hother x0 eq_refl Hgt) in E. discriminate. }
    destruct (sample (_y s) 0) as [y0 |] eqn:Ey0.
    + rewrite (Hbelow x0 y0 eq_refl Hgt eq_refl) in E. injection E as <- <- <-.
      repeat split. now exists x0.
    + unfold value, rd in E. rewrite E0 in E. rewrite bind_ret_l, Hgt, Ey0 in E.
      discriminate.
  - destruct (sample (_x s) 0) as [x0 |] eqn:E0; [| left; now apply Hnone].
    destruct (gt x0 x) eqn:Hgt; [| left; now apply (Hother x0)].
    destruct (sample (_y s) 0) as [y0 |] eqn:Ey0.
    + right. exists x0, y0. repeat split; try assumption. now apply (Hbelow x0 y0).
    + left. unfold value, rd. now rewrite E0, bind_ret_l, Hgt, Ey0.
Qed.

End Cases.

(** ** Beyond the claims: the divisions of a run *)

(** Inversion of a read that is followed by more of a run that returned. *)
Ltac read_inv E x Ex :=
  let l1 := fresh "l" in
  let l2 := fresh "l" in
  apply bind_Ok_inv in E as (x & l1 & l2 & Ex & E & ->);
  apply rd_Ok in Ex as [Ex ->]; cbn [app] in *.

Section Divisions.

Context {T : Type} `{SO : ScalarOrder T} {SS : ScalarSub T}.

Lemma differ_nonzero (a b : T) : eq a b = false -> eq (a - b)%sc 0%sc = false.
Proof.
  intros Hne. destruct (eq (a - b)%sc 0%sc) eqn:Ez; [| reflexivity].
  apply sub_zero in Ez. congruence.
Qed.

Lemma nonzero_nil : nonzero_divisors (@nil T).
Proof. intros d []. Qed.

Lemma nonzero_cons (d : T) (l : list T) :
  eq d 0%sc = false -> nonzero_divisors l -> nonzero_divisors (d :: l).
Proof. intros Hd Hl d' [<- | Hin]; [assumption | now apply Hl]. Qed.

Lemma nonzero_app (l1 l2 : list T) :
  nonzero_divisors l1 -> nonzero_divisors l2 -> nonzero_divisors (l1 ++ l2).
Proof.
  intros H1 H2 d Hin. apply in_app_or in Hin as [Hin | Hin]; [now apply H1 | now apply H2].
Qed.

Lemma catmull_tangent_divisors (s : Spline T) (i : Z) (m : T) (l : list T) :
  catmull_tangent s i = Ok m l -> nonzero_divisors l.
Proof.
  unfold catmull_tangent. intros E.
  read_inv E xn Exn. read_inv E xp Exp.
  destruct (eq xn xp) eqn:Eg.
  - injection E as _ <-. apply nonzero_nil.
  - read_inv E yn Eyn. read_inv E yp Eyp.
    read_inv E xn' Exn'. read_inv E xp' Exp'.
    injection E as _ <-.
    assert (xn' = xn) by congruence. assert (xp' = xp) by congruence. subst.
    apply nonzero_cons; [now apply differ_nonzero | apply nonzero_nil].
Qed.

(** The divisions of [calc] on the segment that contains the query. *)
Lemma calc_divisors (s : Spline T) (x : T) (i : Z) (v : T) (l : list T) :
  inside s x i = true -> calc s x i = Ok v l -> nonzero_divisors l.
Proof.
  intros Hin E. unfold inside in Hin.
  destruct (sample (_x s) i) as [xi |] eqn:Exi; [| discriminate].
  destruct (sample (_x s) (i + 1)) as [xi1 |] eqn:Exi1; [| discriminate].
  apply andb_true_iff in Hin as [Hlo Hhi].
  pose proof (inside_ends_differ x xi xi1 Hlo Hhi) as Hne.
  assert (Hspan : eq (xi1 - xi)%sc 0%sc = false).
  { apply differ_nonzero. now rewrite eq_sym. }
  unfold calc in E.
  destruct (_degree s =? 0).
  { apply rd_Ok in E as [_ ->]. apply nonzero_nil. }
  destruct (_degree s =? 1).
  { rewrite (rd_sample _ _ _ Exi), bind_Ok_nil,
      (rd_sample _ _ _ Exi1), bind_Ok_nil, Hne in E.
    read_inv E yi Eyi. read_inv E yi1 Eyi1.
    injection E as _ <-. now apply nonzero_cons; [| apply nonzero_nil]. }
  destruct (_degree s =? Hermite).
  { rewrite (rd_sample _ _ _ Exi), bind_Ok_nil,
      (rd_sample _ _ _ Exi1), bind_Ok_nil in E.
    unfold divide in E. cbn [bind] in E.
    destruct (rd (_y s) i) as [yi ly |] eqn:Eyi; [| discriminate].
    apply rd_Ok in Eyi as [_ ->]. cbn [bind] in E.
    destruct (rd (_y s) (i + 1)) as [yi1 ly1 |] eqn:Eyi1; [| discriminate].
    apply rd_Ok in Eyi1 as [_ ->]. cbn [bind] in E.
    destruct (rd (_m s) i) as [mi lm |] eqn:Emi; [| discriminate].
    apply rd_Ok in Emi as [_ ->]. cbn [bind] in E.
    destruct (rd (_m s) (i + 1)) as [mi1 lm1 |] eqn:Emi1; [| discriminate].
    apply rd_Ok in Emi1 as [_ ->]. cbn [bind ret app] in E.
    injection E as _ <-. now apply nonzero_cons; [| apply nonzero_nil]. }
  destruct (_degree s =? Catmull); [| discriminate].
  destruct (i =? 0) eqn:Ei0.
  { apply rd_Ok in E as [_ ->]. apply nonzero_nil. }
  destruct (i =? _length s - 2).
  { apply rd_Ok in E as [_ ->]. apply nonzero_nil. }
  rewrite (rd_sample _ _ _ Exi), bind_Ok_nil,
    (rd_sample _ _ _ Exi1), bind_Ok_nil in E.
  apply bind_Ok_inv in E as (t & lt0 & l0 & Et & E & ->).
  injection Et as _ <-.
  apply bind_Ok_inv in E as (m0 & lm0 & l1 & Em0 & E & ->).
  apply bind_Ok_inv in E as (m1 & lm1 & l2 & Em1 & E & ->).
  read_inv E yi Eyi. read_inv E yi1 Eyi1. injection E as _ <-.
  apply catmull_tangent_divisors in Em0.
  assert (Hm1 : nonzero_divisors lm1).
  { destruct (i =? _length s - 1).
    - injection Em1 as _ <-. apply nonzero_nil.
    - now apply catmull_tangent_divisors in Em1. }
  apply (nonzero_cons _ _ Hspan).
  apply nonzero_app; [assumption |]. apply nonzero_app; [assumption | apply nonzero_nil].
Qed.

(** X11. [value] never divides by zero.  On a scalar type where a
    difference is zero only between equal values, every division of a run
    of [value] that returns has a divisor that is not zero: whatever the
    table, the degree and the cursor.  The guards of degree 1 and of the
    Catmull-Rom slopes, and the strict tests of the scan for the Hermite
    parameter, cover every division of the code. *)
Theorem no_zero_divisor (s : Spline T) (x v : T) (s' : Spline T) (l : list T) :
  value s x = Ok (v, s') l -> nonzero_divisors l.
Proof.
  intros E.
  apply value_result in E as [(x0 & _ & _ & _ & _ & ->)
                             | [(x0 & xl & _ & _ & _ & _ & _ & _ & ->)
                             | (x0 & xl & k & _ & _ & _ & _ & _ & Hhit & Hres)]];
    try apply nonzero_nil.
  unfold result_at in Hres. unfold hit in Hhit.
  destruct (exact s x (scan_index s k)).
  - read_inv Hres yj Eyj. injection Hres as _ _ <-. apply nonzero_nil.
  - cbn [orb] in Hhit.
    apply bind_Ok_inv in Hres as (w & lc & lr & Ec & Hres & ->).
    injection Hres as _ _ <-. rewrite app_nil_r.
    rewrite calc_set_prev_point in Ec.
    now apply (calc_divisors s x (scan_index s k) w lc).
Qed.

End Divisions.

(** ** Beyond the claims: the interpolants in exact arithmetic

    With the rationals for scalar type the operations are exact, and the
    formulas of the code can be compared with the functions the table was
    sampled from. *)

Lemma Qpow_3 (t : Q) : (pow t 3%sc == t * t * t)%Q.
Proof. cbn [pow of_int Q_scalar]. unfold Qpow. cbn. ring. Qed.

Lemma Qpow_2 (t : Q) : (pow t 2%sc == t * t)%Q.
Proof. cbn [pow of_int Q_scalar]. unfold Qpow. cbn. ring. Qed.

(** A rational strictly inside a segment: the span is positive. *)
Lemma Q_inside_span (xi xi1 x : Q) :
  lt xi x = true -> lt x xi1 = true -> (xi < x /\ x < xi1)%Q.
Proof. intros Hlo Hhi. split; now apply Qlt_bool_iff. Qed.

(** X12. Degree 1 reproduces a line.  When the two ordinates of the
    segment that contains the query lie on [z |-> a z + b], the rational
    value returned is [a x + b]. *)
Theorem linear_reproduces_affine (a b : Q) (s : Spline Q) (x : Q) (i : Z)
        (xi xi1 yi yi1 : Q) :
  configured s = true -> _degree s = 1 -> 0 <= _prev_point s ->
  sample (_x s) i = Some xi -> sample (_x s) (i + 1) = Some xi1 ->
  sample (_y s) i = Some yi -> sample (_y s) (i + 1) = Some yi1 ->
  (yi == affine a b xi)%Q -> (yi1 == affine a b xi1)%Q ->
  lt xi x = true -> lt x xi1 = true ->
  exists v, value s x = Ok (v, set_prev_point i s) [(xi1 - xi)%Q]
            /\ (v == affine a b x)%Q.
Proof.
  intros Hc Hd Hp Exi Exi1 Eyi Eyi1 Hyi Hyi1 Hlo Hhi.
  exists (spec_linear xi xi1 yi yi1 x). split.
  - rewrite (value_inside s x i Hc Hp (inside_intro s x i xi xi1 Exi Exi1 Hlo Hhi)).
    now rewrite (calc_linear s x i xi xi1 yi yi1 Hd Exi Exi1 Eyi Eyi1
                   (inside_ends_differ x xi xi1 Hlo Hhi)).
  - destruct (Q_inside_span xi xi1 x Hlo Hhi) as [H1 H2].
    unfold spec_linear. cbn [add sub mul div Q_scalar].
    rewrite Hyi, Hyi1. unfold affine. field. lra.
Qed.

(** X13. Degree 1 stays between the ordinates of the segment: the rational
    value returned for [x[i] < x < x[i+1]] lies between [y[i]] and
    [y[i+1]], whichever is the larger. *)
Theorem linear_between (s : Spline Q) (x : Q) (i : Z) (xi xi1 yi yi1 : Q) :
  configured s = true -> _degree s = 1 -> 0 <= _prev_point s ->
  sample (_x s) i = Some xi -> sample (_x s) (i + 1) = Some xi1 ->
  sample (_y s) i = Some yi -> sample (_y s) (i + 1) = Some yi1 ->
  lt xi x = true -> lt x xi1 = true ->
  exists v, value s x = Ok (v, set_prev_point i s) [(xi1 - xi)%Q]
            /\ ((yi <= v <= yi1)%Q \/ (yi1 <= v <= yi)%Q).
Proof.
  intros Hc Hd Hp Exi Exi1 Eyi Eyi1 Hlo Hhi.
  exists (spec_linear xi xi1 yi yi1 x). split.
  - rewrite (value_inside s x i Hc Hp (inside_intro s x i xi xi1 Exi Exi1 Hlo Hhi)).
    now rewrite (calc_linear s x i xi xi1 yi yi1 Hd Exi Exi1 Eyi Eyi1
                   (inside_ends_differ x xi xi1 Hlo Hhi)).
  - destruct (Q_inside_span xi xi1 x Hlo Hhi) as [H1 H2].
    unfold spec_linear. cbn [add sub mul div Q_scalar].
    set (q := ((yi1 - yi) * (x - xi) / (xi1 - xi))%Q).
    assert (Hq : (q * (xi1 - xi) == (yi1 - yi) * (x - xi))%Q).
    { unfold q. field. lra. }
    destruct (Qlt_le_dec yi1 yi) as [Hdown | Hup].
    + right.
      assert (q <= 0)%Q.
      { destruct (Qlt_le_dec 0 q); [| assumption]. exfalso. nra. }
      assert (yi1 - yi <= q)%Q.
      { destruct (Qlt_le_dec q (yi1 - yi)); [| assumption]. exfalso. nra. }
      lra.
    + left.
      assert (0 <= q)%Q.
      { destruct (Qlt_le_dec q 0); [| assumption]. exfalso. nra. }
      assert (q <= yi1 - yi)%Q.
      { destruct (Qlt_le_dec (yi1 - yi) q); [| assumption]. exfalso. nra. }
      lra.
Qed.

(** X14. The Hermite degree reproduces a cubic.  When the ordinates and
    the tangents at the two ends of the segment that contains the query are
    the values and the slopes of [z |-> a z^3 + b z^2 + c z + d], the
    rational value returned is that cubic at [x]: the four basis
    polynomials and the scaling by the span are the right ones. *)
Theorem hermite_reproduces_cubic (a b c d : Q) (s : Spline Q) (x : Q) (i : Z)
        (xi xi1 yi yi1 mi mi1 : Q) :
  configured s = true -> _degree s = Hermite -> 0 <= _prev_point s ->
  sample (_x s) i = Some xi -> sample (_x s) (i + 1) = Some xi1 ->
  sample (_y s) i = Some yi -> sample (_y s) (i + 1) = Some yi1 ->
  sample (_m s) i = Some mi -> sample (_m s) (i + 1) = Some mi1 ->
  (yi == cubic a b c d xi)%Q -> (yi1 == cubic a b c d xi1)%Q ->
  (mi == cubic_slope a b c xi)%Q -> (mi1 == cubic_slope a b c xi1)%Q ->
  lt xi x = true -> lt x xi1 = true ->
  exists v, value s x = Ok (v, set_prev_point i s) [(xi1 - xi)%Q]
            /\ (v == cubic a b c d x)%Q.
Proof.
  intros Hc Hd Hp Exi Exi1 Eyi Eyi1 Emi Emi1 Hyi Hyi1 Hmi Hmi1 Hlo Hhi.
  exists (spec_hermite xi xi1 yi yi1 mi mi1 x). split.
  - rewrite (value_inside s x i Hc Hp (inside_intro s x i xi xi1 Exi Exi1 Hlo Hhi)).
    now rewrite (calc_hermite s x i xi xi1 yi yi1 mi mi1 Hd Exi Exi1 Eyi Eyi1 Emi Emi1).
  - destruct (Q_inside_span xi xi1 x Hlo Hhi) as [H1 H2].
    unfold spec_hermite, spec_h00, spec_h10, spec_h01, spec_h11.
    rewrite !Qpow_3, !Qpow_2. cbn [add sub mul div of_int Q_scalar].
    change (inject_Z 1) with 1%Q. change (inject_Z 2) with 2%Q.
    change (inject_Z 3) with 3%Q.
    rewrite Hyi, Hyi1, Hmi, Hmi1. unfold cubic, cubic_slope. field. lra.
Qed.

(** X15. The Catmull-Rom degree reproduces a line on interior segments.
    When the four ordinates around an interior segment that contains the
    query lie on [z |-> a z + b], the rational value returned is
    [a x + b]: the centred slopes are both [a]. *)
Theorem catmull_reproduces_affine (a b : Q) (s : Spline Q) (x : Q) (i : Z)
        (xp xi xi1 xn yp yi yi1 yn : Q) :
  configured s = true -> _degree s = Catmull -> 0 <= _prev_point s ->
  0 < i < _length s - 2 ->
  sample (_x s) (i - 1) = Some xp -> sample (_x s) i = Some xi ->
  sample (_x s) (i + 1) = Some xi1 -> sample (_x s) (i + 2) = Some xn ->
  sample (_y s) (i - 1) = Some yp -> sample (_y s) i = Some yi ->
  sample (_y s) (i + 1) = Some yi1 -> sample (_y s) (i + 2) = Some yn ->
  (yp == affine a b xp)%Q -> (yi == affine a b xi)%Q ->
  (yi1 == affine a b xi1)%Q -> (yn == affine a b xn)%Q ->
  lt xi x = true -> lt x xi1 = true ->
  exists v l, value s x = Ok (v, set_prev_point i s) l
              /\ (v == affine a b x)%Q.
Proof.
  intros Hc Hd Hp Hi Exp Exi Exi1 Exn Eyp Eyi Eyi1 Eyn Hyp Hyi Hyi1 Hyn Hlo Hhi.
  destruct (Q_inside_span xi xi1 x Hlo Hhi) as [H1 H2].
  assert (Hends : lt xi xi1 = true) by (apply Qlt_bool_iff; lra).
  assert (Hpi : (xp <= xi)%Q).
  { apply Q_le_iff, (table_le s (i - 1) i); (assumption || lia). }
  assert (Hin : (xi1 <= xn)%Q).
  { apply Q_le_iff, (table_le s (i + 1) (i + 2)); (assumption || lia). }
  destruct (interior_tangents s i xp xi xi1 xn yp yi yi1 yn
              Hc Exp Exi Exi1 Exn Eyp Eyi Eyi1 Eyn Hends) as [T0 T1].
  eexists. eexists. split.
  - rewrite (value_inside s x i Hc Hp (inside_intro s x i xi xi1 Exi Exi1 Hlo Hhi)).
    rewrite (calc_catmull_interior s x i xi xi1 yi yi1
               (spec_tangent xp xi1 yp yi1) (spec_tangent xi xn yi yn)
               [(xi1 - xp)%sc] [(xn - xi)%sc] Hd)
      by (assumption || lia).
    reflexivity.
  - unfold hermite, hermite_00, hermite_10, hermite_01, hermite_11, spec_tangent.
    rewrite !Qpow_3, !Qpow_2. cbn [add sub mul div of_int Q_scalar].
    change (inject_Z 1) with 1%Q. change (inject_Z 2) with 2%Q.
    change (inject_Z 3) with 3%Q.
    rewrite Hyp, Hyi, Hyi1, Hyn. unfold affine. field.
    repeat split; lra.
Qed.

(** ** Beyond the claims: the degree and the queries it does not touch *)

Section Degree.

Context {T : Type} `{ST : Scalar T}.

Lemma answer_bind_object (c : result T T) (s1 s2 : Spline T) :
  answer (v <- c ;; ret (v, s1)) = answer (v <- c ;; ret (v, s2)).
Proof. destruct c; reflexivity. Qed.

Lemma rd_none (a : list T) (i : Z) :
  sample a i = None -> rd a i = Fault OutOfBounds.
Proof. intros E. unfold rd. now rewrite E. Qed.

Lemma value_loop_degree (s : Spline T) (x : T) (degree : Z) :
  (forall j, inside s x j = false) ->
  forall (n : nat) (i : Z),
    answer (value_loop (setDegree degree s) x n i) = answer (value_loop s x n i).
Proof.
  intros Hout. induction n as [| n IH]; intros i; [reflexivity |].
  cbn [value_loop]. cbn [_x _y _length _prev_point setDegree].
  set (j := Z.rem (i + _prev_point s) (_length s)).
  pose proof (Hout j) as Hj. unfold inside in Hj.
  destruct (sample (_x s) j) as [xj |] eqn:Exj.
  2:{ now rewrite (rd_none _ _ Exj). }
  rewrite (rd_sample _ _ _ Exj), !bind_Ok_nil.
  destruct (eq xj x).
  { cbn [_y set_prev_point setDegree]. apply answer_bind_object. }
  destruct (lt xj x).
  - destruct (sample (_x s) (j + 1)) as [xn |] eqn:Exn.
    2:{ now rewrite (rd_none _ _ Exn). }
    rewrite (rd_sample _ _ _ Exn), !bind_Ok_nil, !bind_ret_l.
    cbn [andb] in Hj. rewrite Hj. apply IH.
  - rewrite !bind_ret_l. apply IH.
Qed.

(** X16. The degree matters strictly inside a segment only.  For a query
    that lies strictly inside no segment of the table (outside the range,
    equal to a sample's abscissa, or unordered), [setDegree] does not change
    what [value] answers, whatever the degree set. *)
Theorem degree_outside_segments (s : Spline T) (x : T) (degree : Z) :
  (forall j, inside s x j = false) ->
  answer (value (setDegree degree s) x) = answer (value s x).
Proof.
  intros Hout. unfold value. cbn [_x _y _length setDegree].
  destruct (sample (_x s) 0) as [x0 |] eqn:E0.
  2:{ now rewrite (rd_none _ _ E0). }
  rewrite (rd_sample _ _ _ E0), !bind_Ok_nil.
  destruct (gt x0 x); [apply answer_bind_object |].
  destruct (sample (_x s) (_length s - 1)) as [xl |] eqn:El.
  2:{ now rewrite (rd_none _ _ El). }
  rewrite (rd_sample _ _ _ El), !bind_Ok_nil.
  destruct (lt xl x); [apply answer_bind_object |].
  now apply value_loop_degree.
Qed.

End Degree.

(** ** The further properties on concrete tables *)

Lemma shrunk_reachable : reachable shrunk.
Proof.
  change shrunk with (setPoints [0; 1]%Q [5; 7]%Q 2 (set_prev_point 3 (squares Linear))).
  apply reach_setPoints.
  apply (reach_value (squares Linear) 3%Q 9%Q _ []); [apply reach_xy | reflexivity].
Qed.

Lemma constant_segment_witness :
  configured (squares 0) = true
  /\ value (squares 0) (3 # 2)%Q = Ok (1%Q, set_prev_point 1 (squares 0)) [].
Proof.
  split; [reflexivity |].
  refine (constant_segment (squares 0) (3 # 2)%Q 1%Z 1%Q 2%Q 1%Q
            _ _ _ _ _ _ _ _); reflexivity.
Defined.

Lemma unknown_degree_witness :
  configured (squares 7) = true
  /\ inside (squares 7) (3 # 2)%Q 1 = true
  /\ value (squares 7) (3 # 2)%Q = Fault NoReturnCalc.
Proof.
  split; [reflexivity |]. split; [reflexivity |].
  refine (unknown_degree (squares 7) (3 # 2)%Q 1%Z _ _ _ _ _ _ _);
    try reflexivity; discriminate.
Defined.

Lemma catmull_interior_witness :
  configured (five_squares Catmull) = true
  /\ value (five_squares Catmull) (3 # 2)%Q
     = Ok (hermite (((3 # 2) - 1) / (2 - 1))%Q 1%Q 4%Q
             (spec_tangent 0 2 0 4)%Q (spec_tangent 1 3 1 9)%Q 1%Q 2%Q,
           set_prev_point 1 (five_squares Catmull))
          [(2 - 1)%Q; (2 - 0)%Q; (3 - 1)%Q].
Proof.
  split; [reflexivity |].
  refine (catmull_interior (five_squares Catmull) (3 # 2)%Q 1%Z
            0%Q 1%Q 2%Q 3%Q 0%Q 1%Q 4%Q 9%Q _ _ _ _ _ _ _ _ _ _ _ _ _ _);
    try reflexivity; cbn; lia.
Defined.

(** The cursor of [shrunk] is 3, past its table of two samples. *)
Lemma value_total_witness :
  _prev_point shrunk = 3 /\ _length shrunk = 2
  /\ exists v s' l, value shrunk (1 # 2)%Q = Ok (v, s') l.
Proof.
  split; [reflexivity |]. split; [reflexivity |].
  apply (value_total shrunk (1 # 2)%Q shrunk_reachable); reflexivity.
Defined.

Lemma cursor_stays_index_witness :
  0 <= _prev_point shrunk
  /\ forall x v s' l,
      value shrunk x = Ok (v, s') l ->
      s' = shrunk \/ 0 <= _prev_point s' < Z.of_nat (length (_x shrunk)).
Proof. apply (cursor_stays_index shrunk shrunk_reachable). Defined.

Lemma value_repeat_witness :
  value cursor_at_2 (3 # 2)%Q = Ok ((5 # 2)%Q, set_prev_point 1 cursor_at_2) [1%Q]
  /\ value (set_prev_point 1 cursor_at_2) (3 # 2)%Q
     = Ok ((5 # 2)%Q, set_prev_point 1 cursor_at_2) [1%Q]
  /\ (set_prev_point 1 cursor_at_2 = cursor_at_2
      \/ hit (set_prev_point 1 cursor_at_2) (3 # 2)%Q
           (scan_index (set_prev_point 1 cursor_at_2) 0) = true).
Proof.
  split; [reflexivity |].
  refine (value_repeat cursor_at_2 (3 # 2)%Q (5 # 2)%Q
            (set_prev_point 1 cursor_at_2) [1%Q] _ _); reflexivity.
Defined.

Lemma cursor_independent_witness :
  configured (squares Linear) = true /\ increasing (_x (squares Linear)) = true
  /\ answer (value (set_prev_point 0 (squares Linear)) (3 # 2)%Q)
     = answer (value (set_prev_point 3 (squares Linear)) (3 # 2)%Q).
Proof.
  split; [reflexivity |]. split; [reflexivity |].
  refine (proj1 (cursor_independent (squares Linear) (3 # 2)%Q 0 3 _ _ _ _));
    try reflexivity; lia.
Defined.

(** With a count of 0 over the arrays [0; 1], [5; 7]: the query -1, below
    [x[0]], gets [y[0]] = 5 and the query 1/2 reads [_x[-1]].  With a count
    of 3 the query 1/2 reads [_x[2]]. *)
Lemma bad_count_witness :
  _length no_points <= 0
  /\ value no_points (-1)%Q = Ok (5%Q, no_points) []
  /\ value no_points (1 # 2)%Q = Fault OutOfBounds
  /\ Z.of_nat (length (_x one_too_many)) < _length one_too_many
  /\ value one_too_many (-1)%Q = Ok (5%Q, one_too_many) []
  /\ value one_too_many (1 # 2)%Q = Fault OutOfBounds.
Proof.
  assert (H0 : _length no_points <= 0) by (cbn; lia).
  assert (H3 : Z.of_nat (length (_x one_too_many)) < _length one_too_many)
    by (cbn; lia).
  split; [exact H0 |].
  split.
  { refine (proj1 (bad_count no_points (-1)%Q (or_introl H0)) 0%Q 5%Q _ _ _);
      reflexivity. }
  split.
  { refine (proj1 (proj2 (bad_count no_points (1 # 2)%Q (or_introl H0))) 0%Q _ _);
      reflexivity. }
  split; [exact H3 |].
  split.
  { refine (proj1 (bad_count one_too_many (-1)%Q (or_intror H3)) 0%Q 5%Q _ _ _);
      reflexivity. }
  refine (proj1 (proj2 (bad_count one_too_many (1 # 2)%Q (or_intror H3))) 0%Q _ _);
    reflexivity.
Defined.

Lemma hermite_without_tangents_witness :
  configured (squares Hermite) = true
  /\ value (squares Hermite) (3 # 2)%Q = Fault OutOfBounds.
Proof.
  split; [reflexivity |].
  refine (hermite_without_tangents (squares Hermite) (3 # 2)%Q 1%Z _ _ _ _ _);
    try reflexivity. now left.
Defined.

Lemma catmull_tangent_interior_only_witness :
  ((exists m l, catmull_tangent (squares Catmull) 1 = Ok m l)
   <-> 0 < 1 < _length (squares Catmull) - 1)
  /\ catmull_tangent (squares Catmull) 0 = Fault OutOfBounds
  /\ catmull_tangent (squares Catmull) (_length (squares Catmull) - 1)
     = Fault OutOfBounds.
Proof. apply (catmull_tangent_interior_only (squares Catmull) 1). reflexivity. Defined.

Lemma no_zero_divisor_witness :
  nonzero_divisors [(2 - 1)%Q; (2 - 0)%Q; (3 - 1)%Q].
Proof.
  refine (no_zero_divisor (five_squares Catmull) (3 # 2)%Q _ _ _ _).
  reflexivity.
Defined.

Lemma linear_reproduces_affine_witness :
  configured (line_samples Linear) = true
  /\ exists v, value (line_samples Linear) 2%Q
               = Ok (v, set_prev_point 1 (line_samples Linear)) [(3 - 1)%Q]
               /\ (v == affine 2 1 2)%Q.
Proof.
  split; [reflexivity |].
  refine (linear_reproduces_affine 2%Q 1%Q (line_samples Linear) 2%Q 1%Z
            1%Q 3%Q 3%Q 7%Q _ _ _ _ _ _ _ _ _ _ _); reflexivity.
Defined.

Lemma linear_between_witness :
  configured (squares Linear) = true
  /\ exists v, value (squares Linear) (3 # 2)%Q
               = Ok (v, set_prev_point 1 (squares Linear)) [(2 - 1)%Q]
               /\ ((1 <= v <= 4)%Q \/ (4 <= v <= 1)%Q).
Proof.
  split; [reflexivity |].
  refine (linear_between (squares Linear) (3 # 2)%Q 1%Z 1%Q 2%Q 1%Q 4%Q
            _ _ _ _ _ _ _ _ _); reflexivity.
Defined.

Lemma hermite_reproduces_cubic_witness :
  configured cubes_m = true
  /\ exists v, value cubes_m (3 # 2)%Q
               = Ok (v, set_prev_point 1 cubes_m) [(2 - 1)%Q]
               /\ (v == cubic 1 0 0 0 (3 # 2))%Q.
Proof.
  split; [reflexivity |].
  refine (hermite_reproduces_cubic 1%Q 0%Q 0%Q 0%Q cubes_m (3 # 2)%Q 1%Z
            1%Q 2%Q 1%Q 8%Q 3%Q 12%Q _ _ _ _ _ _ _ _ _ _ _ _ _ _ _); reflexivity.
Defined.

Lemma catmull_reproduces_affine_witness :
  configured (line_samples Catmull) = true
  /\ exists v l, value (line_samples Catmull) 2%Q
                 = Ok (v, set_prev_point 1 (line_samples Catmull)) l
                 /\ (v == affine 2 1 2)%Q.
Proof.
  split; [reflexivity |].
  refine (catmull_reproduces_affine 2%Q 1%Q (line_samples Catmull) 2%Q 1%Z
            0%Q 1%Q 3%Q 4%Q 1%Q 3%Q 7%Q 9%Q _ _ _ _ _ _ _ _ _ _ _ _ _ _ _ _ _ _);
    try reflexivity; cbn; lia.
Defined.

Lemma degree_outside_segments_witness :
  exact (squares Linear) 1%Q 1 = true
  /\ answer (value (setDegree Catmull (squares Linear)) 1%Q)
     = answer (value (squares Linear) 1%Q).
Proof.
  split; [reflexivity |].
  apply (degree_outside_segments (squares Linear) 1%Q Catmull).
  intros j. apply (exact_no_inside (squares Linear) 1%Q 1 j); reflexivity.
Defined.
